(** * Plugwise helper classes and USB-stick set-up: a shallow embedding

    The development follows the two Python modules of the integration:

    - [smile_helpers] embeds [custom_components/plugwise/smile_helpers.py]:
      the icon table, the preset lookup, the notification binary sensor and
      the thermostat state projections;
    - [plugwise_usb] embeds the set-up sequence and the unique-id migration
      of [custom_components/plugwise_usb/__init__.py].

    Python dictionaries read by key only are [gmap]s; dictionaries that are
    iterated are association lists in insertion order.  Exceptions are the
    [Raise] results of an error monad, and an object mutated by a method is
    the state of a state-and-error monad. *)

From stdpp Require Import base option list strings gmap fin_maps.
From Stdlib Require Import ZArith Ascii String.

Open Scope string_scope.
Open Scope list_scope.

(** ** Python values, exceptions and results *)

(** The attribute values a gateway reports: null, booleans, numbers and
    strings.  No modelled function does arithmetic on a number, it is only
    passed on or tested for truth, so numbers are integers here. *)
Inductive value : Type :=
  | VNone
  | VBool (b : bool)
  | VInt (n : Z)
  | VStr (s : string).

(** Truth value of a Python object in an [if]. *)
Definition truthy (v : value) : bool :=
  match v with
  | VNone => false
  | VBool b => b
  | VInt n => negb (n =? 0)%Z
  | VStr s => negb (String.eqb s EmptyString)
  end.

(** [v == s] for a string literal [s]: only a string equals a string. *)
Definition py_eq_str (v : value) (s : string) : bool :=
  match v with
  | VStr t => String.eqb t s
  | _ => false
  end.

(** The exception classes that the modelled code raises or handles. *)
Inductive exn : Type :=
  | KeyError
  | IndexError
  | TypeError
  | PortError
  | StickInitError
  | NetworkDown
  | CirclePlusError
  | TimeoutException
  | ConfigEntryNotReady
  | OtherError (name : string).

(** [LookupError] is the base class of [KeyError] and [IndexError] only. *)
Definition is_LookupError (e : exn) : bool :=
  match e with
  | KeyError | IndexError => true
  | _ => false
  end.

Inductive result (A : Type) : Type :=
  | Ok (a : A)
  | Raise (e : exn).
Arguments Ok {A} a.
Arguments Raise {A} e.

#[global] Instance result_ret : MRet result := fun _ a => Ok a.
#[global] Instance result_bind : MBind result := fun _ _ f m =>
  match m with
  | Ok a => f a
  | Raise e => Raise e
  end.

(** [d[k]]: subscription raises [KeyError] on a missing key. *)
Definition subscript {V} (d : gmap string V) (k : string) : result V :=
  match d !! k with
  | Some v => Ok v
  | None => Raise KeyError
  end.

(** [d[k]] where [k] may be [None], which is never a key of [d]. *)
Definition subscript_opt {V} (d : gmap string V) (k : option string) : result V :=
  match k with
  | Some k => subscript d k
  | None => Raise KeyError
  end.

(** [d.get(k)] on a dictionary of values: [None] on a missing key. *)
Definition dict_get (d : gmap string value) (k : string) : value :=
  default VNone (d !! k).

(** [k in d]. *)
Definition dict_has {V} (d : gmap string V) (k : string) : bool :=
  bool_decide (is_Some (d !! k)).

(** A dictionary display [{k1: v1, ..., kn: vn}]: the items are stored from
    left to right. *)
Definition dict_display {V} (items : list (string * V)) : gmap string V :=
  foldl (fun d kv => <[kv.1 := kv.2]> d) ∅ items.

(** [l[i]] on a list or tuple. *)
Definition item {A} (l : list A) (i : nat) : result A :=
  match l !! i with
  | Some a => Ok a
  | None => Raise IndexError
  end.

(** ** ASCII case conversion, as [str.upper] and [str.title] do it *)

Definition is_lower (c : ascii) : bool :=
  (97 <=? nat_of_ascii c)%nat && (nat_of_ascii c <=? 122)%nat.
Definition is_upper (c : ascii) : bool :=
  (65 <=? nat_of_ascii c)%nat && (nat_of_ascii c <=? 90)%nat.
Definition is_cased (c : ascii) : bool := is_lower c || is_upper c.

Definition to_upper (c : ascii) : ascii :=
  if is_lower c then ascii_of_nat (nat_of_ascii c - 32) else c.
Definition to_lower (c : ascii) : ascii :=
  if is_upper c then ascii_of_nat (nat_of_ascii c + 32) else c.

Fixpoint upper (s : string) : string :=
  match s with
  | EmptyString => EmptyString
  | String c s => String (to_upper c) (upper s)
  end.

(** [str.title]: a cased character is upper-cased when the character before
    it is not cased, and lower-cased otherwise. *)
Fixpoint title_from (previous_is_cased : bool) (s : string) : string :=
  match s with
  | EmptyString => EmptyString
  | String c s =>
      String (if previous_is_cased then to_lower c else to_upper c)
             (title_from (is_cased c) s)
  end.
Definition title (s : string) : string := title_from false s.

(** [s.endswith(suffix)]: some tail of [s] is [suffix]. *)
Fixpoint endswith (s suffix : string) : bool :=
  String.eqb s suffix ||
  match s with
  | EmptyString => false
  | String _ s' => endswith s' suffix
  end.

(** [s.replace(old, new)] for a non-empty [old]: the scan goes from left to
    right; where [old] starts, [new] is written and the scan resumes behind
    that occurrence ([skip] counts the characters of it still to pass). *)
Fixpoint replace_scan (old new : string) (skip : nat) (s : string) : string :=
  match s with
  | EmptyString => EmptyString
  | String c s' =>
      match skip with
      | S skip' => replace_scan old new skip' s'
      | O =>
          if String.prefix old s
          then new +:+ replace_scan old new (String.length old - 1) s'
          else String c (replace_scan old new 0 s')
      end
  end.

(** For an empty [old], [new] goes before every character and at the end. *)
Fixpoint replace_empty (new : string) (s : string) : string :=
  match s with
  | EmptyString => new
  | String c s' => new +:+ String c (replace_empty new s')
  end.

Definition replace (s old new : string) : string :=
  match old with
  | EmptyString => replace_empty new s
  | String _ _ => replace_scan old new 0 s
  end.

(** ** A state-and-error monad for methods that mutate their object *)

Definition M (S A : Type) : Type := S -> S * result A.

#[global] Instance M_ret {S} : MRet (M S) := fun _ a s => (s, Ok a).
#[global] Instance M_bind {S} : MBind (M S) := fun _ _ f m s =>
  match m s with
  | (s', Ok a) => f a s'
  | (s', Raise e) => (s', Raise e)
  end.

Definition raise {S A} (e : exn) : M S A := fun s => (s, Raise e).
Definition get_self {S} : M S S := fun s => (s, Ok s).
Definition modify {S} (f : S -> S) : M S unit := fun s => (f s, Ok tt).
Definition lift {S A} (r : result A) : M S A := fun s => (s, r).

(** [for x in l: body] *)
Fixpoint for_each {S A} (l : list A) (body : A -> M S unit) : M S unit :=
  match l with
  | [] => mret tt
  | x :: l => body x ;; for_each l body
  end.

(** [try: body / except ...]: [handler e] is the clause that matches [e],
    if there is one. *)
Definition try_except {S A} (body : M S A) (handler : exn -> option (M S A)) : M S A :=
  fun s =>
    match body s with
    | (s', Ok a) => (s', Ok a)
    | (s', Raise e) =>
        match handler e with
        | Some clause => clause s'
        | None => (s', Raise e)
        end
    end.

(** ** The gateway snapshot *)

(** One notification: its severity tags with their messages, in order. *)
Definition details : Type := list (string * string).

(** Element 0 of the snapshot, the gateway-wide dictionary.  A field is
    [None] when its key is missing ([heater_id] and [gateway_id] also when
    the key holds [None]: the code reads both with [get]). *)
Record gateway : Type := {
  gateway_id : option string;
  heater_id : option string;
  active_device : option value;
  notifications : option (list (string * details));
  presets : option (gmap string (list value))
}.

(** The snapshot [data]: element 0 and the per-device dictionaries. *)
Definition gw_data : Type := gateway * gmap string (gmap string value).

(** * smile_helpers.py *)

Module smile_helpers.

Section icons.

(** The icon names of [const.py]. *)
Variables COOLING_ICON FLAME_ICON FLOW_OFF_ICON FLOW_ON_ICON : string.
Variables HEATING_ICON IDLE_ICON NO_NOTIFICATION_ICON NOTIFICATION_ICON : string.

Definition selector (state : value) : gmap string string :=
  dict_display [
    (* Device State icons *)
    ("cooling", COOLING_ICON);
    ("dhw-heating", FLAME_ICON);
    ("dhw and cooling", COOLING_ICON);
    ("dhw and heating", HEATING_ICON);
    ("heating", HEATING_ICON);
    ("idle", IDLE_ICON);
    (* Binary Sensor icons *)
    ("dhw_state", if truthy state then FLOW_ON_ICON else FLOW_OFF_ICON);
    ("flame_state", if truthy state then FLAME_ICON else IDLE_ICON);
    ("slave_boiler_state", if truthy state then FLAME_ICON else IDLE_ICON);
    ("plugwise_notification",
      if truthy state then NOTIFICATION_ICON else NO_NOTIFICATION_ICON)
  ].

(** [selector.get(arg)] *)
Definition icon_selector (arg : string) (state : value) : option string :=
  selector state !! arg.

End icons.

(** [data["presets"].get(preset)[i]]: [get] answers [None] for a missing
    preset, and subscripting [None] is a [TypeError]. *)
Definition preset_item (data : gateway) (preset : string) (i : nat) : result value :=
  match presets data with
  | None => Raise KeyError
  | Some table =>
      match table !! preset with
      | None => Raise TypeError
      | Some setpoints => item setpoints i
      end
  end.

Definition get_preset_temp (preset : string) (cooling_active : value)
    (data : gateway) : result value :=
  if truthy cooling_active then preset_item data preset 1
  else preset_item data preset 0.

Module GWBinarySensor.

Record t : Type := {
  _attributes : gmap string (list string);
  _data : gw_data;
  _notification : gmap string string
}.

(** [__init__] *)
Definition init (data : gw_data) : t :=
  {| _attributes := ∅; _data := data; _notification := ∅ |}.

(** [self._notification = n] *)
Definition set_notification (n : gmap string string) : M t unit :=
  modify (fun self =>
    {| _attributes := _attributes self; _data := _data self; _notification := n |}).

(** [self._attributes[key] = v] *)
Definition set_attribute (key : string) (v : list string) : M t unit :=
  modify (fun self =>
    {| _attributes := <[key := v]> (_attributes self);
       _data := _data self;
       _notification := _notification self |}).

(** [self._attributes[key].append(msg)] *)
Definition append_attribute (key : string) (msg : string) : M t unit :=
  self ← get_self;
  bucket ← lift (subscript (_attributes self) key);
  set_attribute key (bucket ++ [msg]).

(** [self._notification[notify_id] = text] *)
Definition set_notification_item (notify_id text : string) : M t unit :=
  modify (fun self =>
    {| _attributes := _attributes self;
       _data := _data self;
       _notification := <[notify_id := text]> (_notification self) |}).

Section severities.

(** [SEVERITIES] of [const.py]. *)
Variable SEVERITIES : list string.

Definition extra_state_attributes : M t (option (gmap string (list string))) :=
  self ← get_self;
  let notify := notifications (_data self).1 in
  set_notification ∅ ;;
  for_each SEVERITIES (fun severity =>
    set_attribute (upper severity +:+ "_msg") []) ;;
  match notify with
  | Some ((_ :: _) as notify) =>
      for_each notify (fun '(notify_id, details) =>
        for_each details (fun '(msg_type, msg) =>
          let msg_type :=
            if bool_decide (msg_type ∈ SEVERITIES) then msg_type else "other" in
          append_attribute (upper msg_type +:+ "_msg") msg ;;
          set_notification_item notify_id (title msg_type +:+ ": " +:+ msg))) ;;
      self ← get_self;
      mret (Some (_attributes self))
  | _ => mret None
  end.

End severities.

Definition notification (self : t) : gmap string string := _notification self.

End GWBinarySensor.

Module GWThermostat.

Record t : Type := {
  _data : gw_data;
  _dev_id : string;
  _gateway_id : option string;
  _heater_id : option string
}.

(** [__init__] *)
Definition init (data : gw_data) (dev_id : string) : t :=
  {| _data := data;
     _dev_id := dev_id;
     _gateway_id := gateway_id data.1;
     _heater_id := heater_id data.1 |}.

Definition cooling_active (self : t) : result value :=
  match _heater_id self with
  | Some heater_id =>
      heater ← subscript (_data self).2 heater_id;
      Ok (dict_get heater "cooling_active")
  | None => Ok VNone
  end.

(** [self._data[0]["active_device"]] *)
Definition active_device_flag (self : t) : result value :=
  match active_device (_data self).1 with
  | Some v => Ok v
  | None => Raise KeyError
  end.

Definition cooling_state (self : t) : result value :=
  let cooling_state := VNone in
  active ← active_device_flag self;
  if truthy active then
    heater ← subscript_opt (_data self).2 (_heater_id self);
    let cooling_state := dict_get heater "cooling_state" in
    (* When control_state is present, prefer this data *)
    device ← subscript (_data self).2 (_dev_id self);
    if dict_has device "control_state" then
      device ← subscript (_data self).2 (_dev_id self);
      control_state ← subscript device "control_state";
      Ok (VBool (py_eq_str control_state "cooling"))
    else Ok cooling_state
  else Ok cooling_state.

Definition heating_state (self : t) : result value :=
  let heating_state := VNone in
  active ← active_device_flag self;
  if truthy active then
    heater ← subscript_opt (_data self).2 (_heater_id self);
    let heating_state := dict_get heater "heating_state" in
    (* When control_state is present, prefer this data *)
    device ← subscript (_data self).2 (_dev_id self);
    if dict_has device "control_state" then
      device ← subscript (_data self).2 (_dev_id self);
      control_state ← subscript device "control_state";
      Ok (VBool (py_eq_str control_state "heating"))
    else Ok heating_state
  else Ok heating_state.

End GWThermostat.

End smile_helpers.

(** * plugwise_usb/__init__.py *)

Module plugwise_usb.

(** The methods of the stick that the set-up calls. *)
Inductive call : Type :=
  | connect
  | initialize_stick
  | initialize_circle_plus
  | disconnect
  | scan.

#[global] Instance call_eq_dec : EqDecision call.
Proof. solve_decision. Defined.

Section setup.

(** The stick is an external library: [api_stick c] is [None] when the
    method [c] returns and [Some e] when it raises [e]. *)
Variable api_stick : call -> option exn.

(** A call of a stick method; the state is the log of the calls made. *)
Definition stick_call (c : call) : M (list call) unit :=
  fun log =>
    match api_stick c with
    | None => (log ++ [c], Ok tt)
    | Some e => (log ++ [c], Raise e)
    end.

(** [await hass.async_add_executor_job(method)] runs the method in a
    worker and waits for it: its result or its exception comes back. *)
Definition async_add_executor_job (c : call) : M (list call) unit :=
  stick_call c.

(** The set-up from the creation of the stick on (the lines before it
    migrate the registry and touch no stick; the registrations after the
    scan call no stick method either). *)
Definition async_setup_entry : M (list call) bool :=
  try_except
    (async_add_executor_job connect ;;
     async_add_executor_job initialize_stick ;;
     async_add_executor_job initialize_circle_plus)
    (fun e =>
       match e with
       | PortError => Some (raise ConfigEntryNotReady)
       | StickInitError =>
           Some (async_add_executor_job disconnect ;; raise ConfigEntryNotReady)
       | NetworkDown =>
           Some (async_add_executor_job disconnect ;; raise ConfigEntryNotReady)
       | CirclePlusError =>
           Some (async_add_executor_job disconnect ;; raise ConfigEntryNotReady)
       | TimeoutException =>
           Some (async_add_executor_job disconnect ;; raise ConfigEntryNotReady)
       | _ => None
       end) ;;
  stick_call scan ;;
  mret true.

End setup.

Record RegistryEntry : Type := { unique_id : string }.

(** Conversion list of unique ID suffixes *)
Definition conversion_list : list (string * string) :=
  [ ("last_second", "power_1s");
    ("last_8_seconds", "power_8s");
    ("day_consumption", "energy_consumption_today");
    ("rtt", "ping");
    ("rssi_in", "RSSI_in");
    ("rssi_out", "RSSI_out");
    ("relay_state", "relay") ].

(** The [for old, new in ...] loop with its [return]. *)
Fixpoint migrate_loop (table : list (string * string)) (entity_entry : RegistryEntry)
    : option (gmap string string) :=
  match table with
  | [] => None (* No migration needed *)
  | (old, new) :: table =>
      if endswith (unique_id entity_entry) old
      then Some {[ "new_unique_id" := replace (unique_id entity_entry) old new ]}
      else migrate_loop table entity_entry
  end.

(** The [config_entry] argument is not used by the body. *)
Definition async_migrate_entity_entry {ConfigEntry : Type} (config_entry : ConfigEntry)
    (entity_entry : RegistryEntry) : option (gmap string string) :=
  migrate_loop conversion_list entity_entry.

End plugwise_usb.

(** * Specification-side definitions and example snapshots *)

Import smile_helpers plugwise_usb.

(** The categories that the icon table knows. *)
Definition recognized_categories : list string :=
  [ "cooling"; "dhw-heating"; "dhw and cooling"; "dhw and heating"; "heating";
    "idle"; "dhw_state"; "flame_state"; "slave_boiler_state";
    "plugwise_notification" ].

(** A zone thermostat that reports the control state [mode], next to a
    heater whose own flags say the opposite of heating. *)
Definition example_devices (mode : string) : gmap string (gmap string value) :=
  <["heater" := <["cooling_state" := VBool true]> {[ "heating_state" := VBool false ]}]>
    {[ "zone" := {[ "control_state" := VStr mode ]} ]}.

Definition example_gateway (heater : option string) (active : value) : gateway :=
  {| gateway_id := Some "gateway";
     heater_id := heater;
     active_device := Some active;
     notifications := None;
     presets := Some {[ "away" := [VInt 10; VInt 25] ]} |}.

Definition example_data (active : value) (mode : string) : gw_data :=
  (example_gateway (Some "heater") active, example_devices mode).

(** The value under [new_unique_id] of a migration result. *)
Definition new_unique_id (migration : option (gmap string string)) : option string :=
  migration ≫= (.!! "new_unique_id").

(** The migration as the specification words it: the first pair of the
    table whose legacy suffix ends the identifier rewrites that suffix, and
    nothing but that suffix. *)
Fixpoint rewrite_suffix (table : list (string * string)) (unique_id : string)
    : option string :=
  match table with
  | [] => None
  | (old, new) :: table =>
      if endswith unique_id old
      then Some (substring 0 (String.length unique_id - String.length old) unique_id
                 +:+ new)
      else rewrite_suffix table unique_id
  end.

(** [old] starts nowhere in [front +:+ old] but behind [front]. *)
Fixpoint only_at_end (old front : string) : bool :=
  match front with
  | EmptyString => true
  | String c front' =>
      negb (String.prefix old (front +:+ old)) && only_at_end old front'
  end.

(** The stick methods of the [try] block, in call order. *)
Definition stages : list call := [connect; initialize_stick; initialize_circle_plus].

(** The exceptions whose [except] clause disconnects the stick. *)
Definition disconnecting : list exn :=
  [StickInitError; NetworkDown; CirclePlusError; TimeoutException].

(** A stick on which only the method [failing] raises, namely [e]. *)
Definition example_stick (failing : call) (e : exn) : call → option exn :=
  fun c => if decide (c = failing) then Some e else None.

(** The severity a message is filed under: its tag when the tag is one of
    the severities, and other when it is not. *)
Definition severity_of (severities : list string) (msg_type : string) : string :=
  if bool_decide (msg_type ∈ severities) then msg_type else "other".

(** The entries of all notifications in the order in which the two loops
    meet them, each with the id of its notification. *)
Definition entries (notify : list (string * details)) : list (string * (string * string)) :=
  flat_map (fun '(notify_id, details) => pair notify_id <$> details) notify.

(** The messages of one severity across all notifications, in order. *)
Definition messages_of (severities : list string) (severity : string)
    (notify : list (string * details)) : list string :=
  (filter (fun entry => severity_of severities entry.2.1 = severity) (entries notify)).*2.*2.

(** The entries that the notification id [notify_id] carries, in order. *)
Definition entries_of (notify_id : string) (notify : list (string * details)) : details :=
  (filter (fun entry => entry.1 = notify_id) (entries notify)).*2.

(** The text of the per-id view for one entry. *)
Definition formatted (severities : list string) (entry : string * string) : string :=
  title (severity_of severities entry.1) +:+ ": " +:+ entry.2.

Definition example_severities : list string := ["other"; "info"; "warning"; "error"].

Definition example_notify : list (string * details) :=
  [ ("n1", [("warning", "low battery"); ("weird", "unparsed")]);
    ("n2", [("info", "update available")]) ].

Definition example_sensor : GWBinarySensor.t :=
  GWBinarySensor.init
    ({| gateway_id := Some "gateway";
        heater_id := None;
        active_device := None;
        notifications := Some example_notify;
        presets := None |}, ∅).


(** ** The effect of the notification loops, as functions on the sensor *)

(** The [for severity in SEVERITIES] loop on the attributes. *)
Definition reset_attributes (severities : list string)
    (attributes : gmap string (list string)) : gmap string (list string) :=
  foldl (fun attributes severity => <[upper severity +:+ "_msg" := []]> attributes)
    attributes severities.

(** One pass of the inner loop body that meets no missing bucket. *)
Definition apply_entry (severities : list string) (entry : string * (string * string))
    (self : GWBinarySensor.t) : GWBinarySensor.t :=
  {| GWBinarySensor._attributes :=
       alter (fun bucket => bucket ++ [entry.2.2])
         (upper (severity_of severities entry.2.1) +:+ "_msg")
         (GWBinarySensor._attributes self);
     GWBinarySensor._data := GWBinarySensor._data self;
     GWBinarySensor._notification :=
       <[entry.1 := formatted severities entry.2]> (GWBinarySensor._notification self) |}.

Definition apply_entries (severities : list string)
    (todo : list (string * (string * string))) (self : GWBinarySensor.t) : GWBinarySensor.t :=
  foldl (fun self entry => apply_entry severities entry self) self todo.

(** Every severity has its bucket. *)
Definition buckets_ready (severities : list string) (self : GWBinarySensor.t) : Prop :=
  ∀ severity, severity ∈ severities →
    is_Some (GWBinarySensor._attributes self !! (upper severity +:+ "_msg")).

(** The sensor after the two resets at the head of the method. *)
Definition cleared (severities : list string) (self : GWBinarySensor.t) : GWBinarySensor.t :=
  {| GWBinarySensor._attributes :=
       reset_attributes severities (GWBinarySensor._attributes self);
     GWBinarySensor._data := GWBinarySensor._data self;
     GWBinarySensor._notification := ∅ |}.

(** * Further definitions *)

(** ** Overlapping occurrences *)

(** [overlaps old s]: a tail of [s] that is neither [s] nor empty starts
    [old].  For [s := old] this says that two occurrences of [old] can
    overlap. *)
Fixpoint overlaps (old s : string) : bool :=
  match s with
  | EmptyString => false
  | String _ s' =>
      match s' with
      | EmptyString => false
      | String _ _ => String.prefix s' old || overlaps old s'
      end
  end.

(** * plugwise_usb/__init__.py: entities and the store of the integration *)

(** ** Nodes and entity descriptions *)

(** What the integration reads of a node of the stick library.  The
    hardware model and the firmware version stand for their string forms;
    [features] are the feature ids that the node supports. *)
Module PlugwiseNode.

Record t : Type := {
  available : bool;
  mac : string;
  hardware_model : string;
  firmware_version : string;
  features : list string
}.

End PlugwiseNode.

Module PlugwiseEntityDescription.

Record t : Type := {
  key : string;
  name : string;
  should_poll : bool
}.

End PlugwiseEntityDescription.

(** [s[-n:]] for a positive [n]: the last [n] characters of [s], all of
    [s] when it is shorter. *)
Definition slice_last (n : nat) (s : string) : string :=
  substring (String.length s - n) n s.

Module PlugwiseUSBEntity.

Record device_info : Type := {
  identifiers : list (string * string);
  name : string;
  manufacturer : string;
  model : string;
  sw_version : string
}.

Record t : Type := {
  _attr_available : bool;
  _attr_device_info : device_info;
  _attr_name : string;
  _attr_should_poll : bool;
  _attr_unique_id : string;
  _node : PlugwiseNode.t;
  entity_description : PlugwiseEntityDescription.t;
  node_callbacks : string * string
}.

Section init.

(** [DOMAIN] and [USB_AVAILABLE_ID] of [const.py]. *)
Variables DOMAIN USB_AVAILABLE_ID : string.

Definition init (node : PlugwiseNode.t)
    (entity_description : PlugwiseEntityDescription.t) : t :=
  {| _attr_available := PlugwiseNode.available node;
     _attr_device_info :=
       {| identifiers := [(DOMAIN, PlugwiseNode.mac node)];
          name := PlugwiseNode.hardware_model node
                  +:+ " (" +:+ PlugwiseNode.mac node +:+ ")";
          manufacturer := "Plugwise";
          model := PlugwiseNode.hardware_model node;
          sw_version := PlugwiseNode.firmware_version node |};
     _attr_name := PlugwiseEntityDescription.name entity_description
                   +:+ " (" +:+ slice_last 5 (PlugwiseNode.mac node) +:+ ")";
     _attr_should_poll := PlugwiseEntityDescription.should_poll entity_description;
     _attr_unique_id := PlugwiseNode.mac node
                        +:+ "-" +:+ PlugwiseEntityDescription.key entity_description;
     _node := node;
     entity_description := entity_description;
     node_callbacks := (USB_AVAILABLE_ID, PlugwiseEntityDescription.key entity_description) |}.

End init.

End PlugwiseUSBEntity.

(** ** The characters of a MAC address *)

(** Every character but a lower-case letter behind [f]: the hexadecimal
    digits in either case, and separators such as the colon. *)
Definition mac_char (c : ascii) : bool :=
  negb (is_lower c) || (nat_of_ascii c <=? 102)%nat.

(** ** The store [hass.data[DOMAIN]] *)

Module hass_store.

(** What an entry of the store holds under a key: the stick, the function
    that undoes the update listener, or a list of MAC addresses. *)
Inductive entry_value : Type :=
  | VStick
  | VListener
  | VMacs (macs : list string).

(** [hass.data[DOMAIN][entry_id]] and [hass.data[DOMAIN]]. *)
Abbreviation entry := (gmap string entry_value).
Abbreviation domain_data := (gmap string (gmap string entry_value)).

(** The calls into Home Assistant and into the stick library. *)
Inductive hass_call : Type :=
  | async_forward_entry_setups (platforms : list string)
  | auto_update
  | allow_join_requests (enable accept : bool)
  | subscribe_stick_callback (callback_type : string)
  | async_unload_platforms (platforms : list string)
  | undo_update_listener
  | stick_disconnect.

(** The state: the store and the log of the calls made. *)
Record hass : Type := {
  data : domain_data;
  calls : list hass_call
}.

Section store.

(** [PLATFORMS_USB], the feature ids and the keys of [const.py], and the
    members of Home Assistant's [Platform] that the code names. *)
Variable PLATFORMS_USB : list string.
Variables Platform_SWITCH Platform_BINARY_SENSOR Platform_SENSOR : string.
Variables USB_RELAY_ID USB_MOTION_ID CB_JOIN_REQUEST UNDO_UPDATE_LISTENER : string.

(** [outcome c] is [None] when the call [c] returns and [Some e] when it
    raises [e]; [unload_platforms] is what the unloading of the platforms
    answers. *)
Variable outcome : hass_call → option exn.
Variable unload_platforms : result bool.

(** [config_entry.entry_id] *)
Variable entry_id : string.

Definition log_call (c : hass_call) (h : hass) : hass :=
  {| data := data h; calls := calls h ++ [c] |}.

Definition external (c : hass_call) : M hass unit :=
  fun h =>
    match outcome c with
    | None => (log_call c h, Ok tt)
    | Some e => (log_call c h, Raise e)
    end.

(** [hass.data[DOMAIN][config_entry.entry_id]] *)
Definition get_entry : M hass entry :=
  h ← get_self;
  lift (subscript (data h) entry_id).

(** [hass.data[DOMAIN][config_entry.entry_id][k] = v] *)
Definition set_entry_item (k : string) (v : entry_value) : M hass unit :=
  entry ← get_entry;
  modify (fun h =>
    {| data := <[entry_id := <[k := v]> entry]> (data h); calls := calls h |}).

(** [hass.data[DOMAIN][config_entry.entry_id][platform].append(mac)] *)
Definition append_mac (platform mac : string) : M hass unit :=
  entry ← get_entry;
  v ← lift (subscript entry platform);
  match v with
  | VMacs macs => set_entry_item platform (VMacs (macs ++ [mac]))
  | _ => raise (OtherError "AttributeError")
  end.

(** The callback of the scan.  [devices] are the items of
    [api_stick.devices], an unsupported device being [None].  The debug
    messages only read the stick and the entry; [add_new_node] is defined
    here and handed to the stick, it is not called. *)
Definition discover_finished (devices : list (string * option PlugwiseNode.t))
    (pref_disable_new_entities : bool) : M hass unit :=
  for_each PLATFORMS_USB (fun component =>
    set_entry_item component (VMacs [])) ;;
  for_each devices (fun '(mac, pw_device) =>
    (* Skip unsupported devices *)
    match pw_device with
    | Some pw_device =>
        (if bool_decide (USB_RELAY_ID ∈ PlugwiseNode.features pw_device)
         then append_mac Platform_SWITCH mac
         else mret tt) ;;
        (if bool_decide (USB_MOTION_ID ∈ PlugwiseNode.features pw_device)
         then append_mac Platform_BINARY_SENSOR mac
         else mret tt) ;;
        append_mac Platform_SENSOR mac
    | None => mret tt
    end) ;;
  external (async_forward_entry_setups PLATFORMS_USB) ;;
  external auto_update ;;
  if pref_disable_new_entities
  then external (allow_join_requests true false)
  else (external (allow_join_requests true true) ;;
        external (subscribe_stick_callback CB_JOIN_REQUEST)).

(** [await hass.config_entries.async_unload_platforms(config_entry, PLATFORMS_USB)] *)
Definition await_unload_platforms : M hass bool :=
  fun h => (log_call (async_unload_platforms PLATFORMS_USB) h, unload_platforms).

(** [v()]: of the values of an entry only the undo function is callable. *)
Definition call_value (v : entry_value) : M hass unit :=
  match v with
  | VListener => external undo_update_listener
  | _ => raise TypeError
  end.

(** [await hass.async_add_executor_job(v.disconnect)]: only the stick has
    the method. *)
Definition disconnect_value (v : entry_value) : M hass unit :=
  match v with
  | VStick => external stick_disconnect
  | _ => raise (OtherError "AttributeError")
  end.

(** [hass.data[DOMAIN].pop(config_entry.entry_id)] *)
Definition pop_entry : M hass unit :=
  h ← get_self;
  match data h !! entry_id with
  | Some _ => modify (fun h => {| data := delete entry_id (data h); calls := calls h |})
  | None => raise KeyError
  end.

Definition async_unload_entry : M hass bool :=
  unload_ok ← await_unload_platforms;
  entry ← get_entry;
  undo ← lift (subscript entry UNDO_UPDATE_LISTENER);
  call_value undo ;;
  (if unload_ok : bool
   then
     entry ← get_entry;
     api_stick ← lift (subscript entry "stick");
     disconnect_value api_stick ;;
     pop_entry
   else mret tt) ;;
  mret unload_ok.

End store.

End hass_store.

(** ** Specification-side definitions for the store *)

(** The MAC addresses of the supported devices that satisfy [p], in the
    order of the devices. *)
Definition macs_where (p : PlugwiseNode.t → bool)
    (devices : list (string * option PlugwiseNode.t)) : list string :=
  omap (fun device : string * option PlugwiseNode.t =>
          match device.2 with
          | Some node => if p node then Some device.1 else None
          | None => None
          end) devices.

Definition has_feature (feature : string) (node : PlugwiseNode.t) : bool :=
  bool_decide (feature ∈ PlugwiseNode.features node).

(** ** Example snapshots of the store *)

Definition example_platforms : list string := ["binary_sensor"; "sensor"; "switch"].

Definition example_circle : PlugwiseNode.t :=
  {| PlugwiseNode.available := true;
     PlugwiseNode.mac := "000D6F0001A5A3B7";
     PlugwiseNode.hardware_model := "Circle";
     PlugwiseNode.firmware_version := "2011-06-27";
     PlugwiseNode.features := ["available"; "ping"; "relay"; "power_8s"] |}.

Definition example_scan : PlugwiseNode.t :=
  {| PlugwiseNode.available := true;
     PlugwiseNode.mac := "000D6F0003C4D5E6";
     PlugwiseNode.hardware_model := "Scan";
     PlugwiseNode.firmware_version := "2011-06-27";
     PlugwiseNode.features := ["available"; "ping"; "motion"] |}.

(** A relay node, a device that is not supported, and a motion node. *)
Definition example_usb_devices : list (string * option PlugwiseNode.t) :=
  [ ("000D6F0001A5A3B7", Some example_circle);
    ("000D6F0002B1C2D3", None);
    ("000D6F0003C4D5E6", Some example_scan) ].

(** The entry after the set-up, with a list left by an earlier discovery. *)
Definition example_entry : gmap string hass_store.entry_value :=
  <["sensor" := hass_store.VMacs ["000D6F0009999999"]]>
    (<["undo_update_listener" := hass_store.VListener]>
       {[ "stick" := hass_store.VStick ]}).

Definition example_hass (entries : gmap string (gmap string hass_store.entry_value))
    : hass_store.hass :=
  {| hass_store.data := entries; hass_store.calls := [] |}.

(** * The icon table *)

Lemma foldl_insert_lookup_ne {V} (items : list (string * V)) (d : gmap string V) k :
  (∀ kv, kv ∈ items → kv.1 ≠ k) →
  foldl (fun d kv => <[kv.1 := kv.2]> d) d items !! k = d !! k.
Proof.
  revert d. induction items as [|kv items IH]; intros d Hne; simpl; [done|].
  rewrite IH.
  - apply lookup_insert_ne, Hne. by left.
  - intros kv' Hin. apply Hne. by right.
Qed.

Lemma dict_display_lookup_None {V} (items : list (string * V)) k :
  k ∉ items.*1 → dict_display items !! k = None.
Proof.
  intros Hk. unfold dict_display. rewrite foldl_insert_lookup_ne; [apply lookup_empty|].
  intros kv Hin <-. apply Hk. by apply list_elem_of_fmap_2.
Qed.

Section icons.

Variables COOLING_ICON FLAME_ICON FLOW_OFF_ICON FLOW_ON_ICON : string.
Variables HEATING_ICON IDLE_ICON NO_NOTIFICATION_ICON NOTIFICATION_ICON : string.

Let icon_selector :=
  icon_selector COOLING_ICON FLAME_ICON FLOW_OFF_ICON FLOW_ON_ICON
    HEATING_ICON IDLE_ICON NO_NOTIFICATION_ICON NOTIFICATION_ICON.

(** C8: each of the six device-state categories has one fixed icon,
    whatever the [state] argument is. *)
Theorem icon_selector_device_state (state : value) :
  icon_selector "cooling" state = Some COOLING_ICON
  ∧ icon_selector "dhw-heating" state = Some FLAME_ICON
  ∧ icon_selector "dhw and cooling" state = Some COOLING_ICON
  ∧ icon_selector "dhw and heating" state = Some HEATING_ICON
  ∧ icon_selector "heating" state = Some HEATING_ICON
  ∧ icon_selector "idle" state = Some IDLE_ICON.
Proof. repeat split; vm_compute; reflexivity. Qed.

(** C9: a category outside the table has no icon; [icon_selector] is a
    total function into [option], so there is no error to raise. *)
Theorem icon_selector_unknown (arg : string) (state : value) :
  arg ∉ recognized_categories → icon_selector arg state = None.
Proof.
  intros Harg. unfold icon_selector, smile_helpers.icon_selector, selector.
  apply dict_display_lookup_None. exact Harg.
Qed.

End icons.

Lemma icon_selector_unknown_witness :
  ("valve" ∉ recognized_categories)
  ∧ icon_selector "a" "b" "c" "d" "e" "f" "g" "h" "valve" (VBool true) = None.
Proof.
  assert (H : "valve" ∉ recognized_categories).
  { unfold recognized_categories. rewrite !not_elem_of_cons. 
    repeat split; try discriminate. apply not_elem_of_nil. }
  split; [exact H | apply (icon_selector_unknown _ _ _ _ _ _ _ _ _ _ H)].
Defined.

(** * Preset temperatures *)

Lemma preset_item_pair data table preset heating cooling :
  presets data = Some table →
  table !! preset = Some [heating; cooling] →
  preset_item data preset 0 = Ok heating ∧ preset_item data preset 1 = Ok cooling.
Proof. intros Hd Ht. unfold preset_item. rewrite Hd, Ht. done. Qed.

Lemma preset_item_absent data table preset i :
  presets data = Some table →
  table !! preset = None →
  preset_item data preset i = Raise TypeError.
Proof. intros Hd Ht. unfold preset_item. by rewrite Hd, Ht. Qed.

(** C3, as the claim states it, does not hold: for a preset that the table
    lacks the call does fail, but with the [TypeError] of subscripting the
    [None] that [get] answered, which is no lookup error. *)
Lemma get_preset_temp_absent_not_lookup_error :
  ¬ (∀ preset cooling_active data table,
       presets data = Some table →
       table !! preset = None →
       ∃ e, get_preset_temp preset cooling_active data = Raise e
            ∧ is_LookupError e = true).
Proof.
  intros H.
  destruct (H "home" (VBool false) (example_gateway None VNone)
              {[ "away" := [VInt 10; VInt 25] ]} eq_refl eq_refl)
    as (e & He & Hlookup).
  vm_compute in He. injection He as <-. discriminate Hlookup.
Qed.

(** C3, amended: the cooling setpoint (second element) when
    [cooling_active] is true, the heating setpoint (first element)
    otherwise; for a preset absent from the table the call fails with a
    [TypeError] and yields no default. *)
Theorem get_preset_temp_spec preset cooling_active data table :
  presets data = Some table →
  (∀ heating cooling,
      table !! preset = Some [heating; cooling] →
      get_preset_temp preset cooling_active data
      = Ok (if truthy cooling_active then cooling else heating))
  ∧ (table !! preset = None →
     get_preset_temp preset cooling_active data = Raise TypeError).
Proof.
  intros Hd. unfold get_preset_temp. split.
  - intros heating cooling Ht.
    destruct (preset_item_pair _ _ _ _ _ Hd Ht) as [H0 H1].
    by destruct (truthy cooling_active).
  - intros Ht. destruct (truthy cooling_active);
      by apply preset_item_absent with table.
Qed.

Lemma get_preset_temp_spec_witness :
  get_preset_temp "away" (VBool false) (example_gateway None VNone) = Ok (VInt 10)
  ∧ get_preset_temp "away" (VBool true) (example_gateway None VNone) = Ok (VInt 25)
  ∧ get_preset_temp "home" (VBool true) (example_gateway None VNone) = Raise TypeError.
Proof.
  pose (table := {[ "away" := [VInt 10; VInt 25] ]} : gmap string (list value)).
  assert (Hd : ∀ h a, presets (example_gateway h a) = Some table) by reflexivity.
  split; [|split].
  - apply (proj1 (get_preset_temp_spec "away" (VBool false) _ table (Hd _ _))
             (VInt 10) (VInt 25)). reflexivity.
  - apply (proj1 (get_preset_temp_spec "away" (VBool true) _ table (Hd _ _))
             (VInt 10) (VInt 25)). reflexivity.
  - apply (proj2 (get_preset_temp_spec "home" (VBool true) _ table (Hd _ _))).
    reflexivity.
Defined.

(** * The thermostat projections *)

Section thermostat.

Import GWThermostat.

Variables (data : gw_data) (dev_id : string).
Let self := init data dev_id.

Lemma active_device_flag_init v :
  active_device data.1 = Some v → active_device_flag self = Ok v.
Proof. intros H. unfold active_device_flag. simpl. by rewrite H. Qed.

(** C2: with a false active-device flag both projections are [None],
    whatever the per-device dictionaries hold. *)
Theorem states_none_when_inactive v :
  active_device data.1 = Some v →
  truthy v = false →
  heating_state self = Ok VNone ∧ cooling_state self = Ok VNone.
Proof.
  intros Hv Hf. unfold heating_state, cooling_state.
  rewrite (active_device_flag_init v Hv). simpl. by rewrite Hf.
Qed.

Lemma dict_has_lookup {V} (d : gmap string V) k v :
  d !! k = Some v → dict_has d k = true.
Proof. intros H. apply bool_decide_eq_true. by exists v. Qed.

(** C1, amended: when the active-device flag is true and the heater id
    is a key of the per-device dictionaries, a device that reports the
    control state heating is heating and not cooling, whatever the
    heater's own flags say. *)
Theorem control_state_heating_overrides v heater_id' heater device :
  active_device data.1 = Some v →
  truthy v = true →
  heater_id data.1 = Some heater_id' →
  data.2 !! heater_id' = Some heater →
  data.2 !! dev_id = Some device →
  device !! "control_state" = Some (VStr "heating") →
  heating_state self = Ok (VBool true) ∧ cooling_state self = Ok (VBool false).
Proof.
  intros Hv Ht Hh Hheater Hdev Hcontrol.
  unfold heating_state, cooling_state.
  rewrite (active_device_flag_init v Hv). simpl. rewrite Ht, Hh. simpl.
  unfold subscript. rewrite Hheater, Hdev. simpl.
  rewrite (dict_has_lookup _ _ _ Hcontrol), Hcontrol. done.
Qed.

(** C10: with a true active-device flag both projections subscript the
    per-device dictionaries at the heater id and at the device id, so a
    null heater id or an id that is no key raises [KeyError], where
    [cooling_active] answers [None] for a null heater id. *)
Theorem states_raise_on_missing_device v :
  active_device data.1 = Some v →
  truthy v = true →
  heater_id data.1 = None
  ∨ (∃ h, heater_id data.1 = Some h ∧ data.2 !! h = None)
  ∨ data.2 !! dev_id = None →
  heating_state self = Raise KeyError
  ∧ cooling_state self = Raise KeyError
  ∧ (heater_id data.1 = None → cooling_active self = Ok VNone).
Proof.
  intros Hv Ht Hmissing.
  assert (Hguard : heater_id data.1 = None → cooling_active self = Ok VNone).
  { intros Hnone. unfold cooling_active. simpl. by rewrite Hnone. }
  refine (conj _ (conj _ Hguard)).
  all: unfold heating_state, cooling_state.
  all: rewrite (active_device_flag_init v Hv); simpl; rewrite Ht.
  all: destruct Hmissing as [Hnone | [(h & Hh & Habsent) | Hdev]].
  all: try (rewrite Hnone; reflexivity).
  all: try (rewrite Hh; simpl; unfold subscript; rewrite Habsent; reflexivity).
  all: destruct (heater_id data.1) as [h|]; simpl; [|reflexivity].
  all: unfold subscript; destruct (data.2 !! h); simpl; [|reflexivity].
  all: rewrite Hdev; reflexivity.
Qed.

End thermostat.

(** C1, as the claim states it, does not hold: a snapshot whose
    active-device flag is false answers [None] although the device reports
    the control state heating. *)
Lemma control_state_heating_inactive_counterexample :
  ¬ (∀ (data : gw_data) dev_id device,
       data.2 !! dev_id = Some device →
       device !! "control_state" = Some (VStr "heating") →
       GWThermostat.heating_state (GWThermostat.init data dev_id) = Ok (VBool true)
       ∧ GWThermostat.cooling_state (GWThermostat.init data dev_id) = Ok (VBool false)).
Proof.
  intros H.
  destruct (H (example_data (VBool false) "heating") "zone"
              {[ "control_state" := VStr "heating" ]} eq_refl eq_refl) as [Hheating _].
  vm_compute in Hheating. discriminate Hheating.
Qed.

Lemma control_state_heating_overrides_witness :
  GWThermostat.heating_state (GWThermostat.init (example_data (VBool true) "heating") "zone")
  = Ok (VBool true)
  ∧ GWThermostat.cooling_state (GWThermostat.init (example_data (VBool true) "heating") "zone")
    = Ok (VBool false).
Proof.
  apply (control_state_heating_overrides (example_data (VBool true) "heating") "zone"
           (VBool true) "heater"
           (<["cooling_state" := VBool true]> {[ "heating_state" := VBool false ]})
           {[ "control_state" := VStr "heating" ]});
    reflexivity.
Defined.

Lemma states_none_when_inactive_witness :
  GWThermostat.heating_state (GWThermostat.init (example_data (VBool false) "cooling") "zone")
  = Ok VNone
  ∧ GWThermostat.cooling_state (GWThermostat.init (example_data (VBool false) "cooling") "zone")
    = Ok VNone.
Proof.
  apply (states_none_when_inactive (example_data (VBool false) "cooling") "zone"
           (VBool false)); reflexivity.
Defined.

Lemma states_raise_on_missing_device_witness :
  let data := (example_gateway None (VBool true), example_devices "heating") in
  GWThermostat.heating_state (GWThermostat.init data "zone") = Raise KeyError
  ∧ GWThermostat.cooling_state (GWThermostat.init data "zone") = Raise KeyError
  ∧ (heater_id data.1 = None →
     GWThermostat.cooling_active (GWThermostat.init data "zone") = Ok VNone).
Proof.
  apply (states_raise_on_missing_device
           (example_gateway None (VBool true), example_devices "heating") "zone"
           (VBool true)); [reflexivity | reflexivity | left; reflexivity].
Defined.

(** * Runs of the state-and-error monad *)

Lemma bind_run {S A B} (m : M S A) (f : A → M S B) (s : S) :
  (m ≫= f) s
  = match m s with
    | (s', Ok a) => f a s'
    | (s', Raise e) => (s', Raise e)
    end.
Proof. reflexivity. Qed.

Lemma try_except_run {S A} (body : M S A) (handler : exn → option (M S A)) (s : S) :
  try_except body handler s
  = match body s with
    | (s', Ok a) => (s', Ok a)
    | (s', Raise e) =>
        match handler e with
        | Some clause => clause s'
        | None => (s', Raise e)
        end
    end.
Proof. reflexivity. Qed.

Lemma for_each_cons {S A} (x : A) (l : list A) (body : A → M S unit) :
  for_each (x :: l) body = (body x ;; for_each l body).
Proof. reflexivity. Qed.

(** * The set-up of the stick *)

Section setup.

Variable api_stick : call → option exn.

Lemma stick_call_returns c log :
  api_stick c = None → stick_call api_stick c log = (log ++ [c], Ok tt).
Proof. intros H. unfold stick_call. by rewrite H. Qed.

Lemma stick_call_raises c e log :
  api_stick c = Some e → stick_call api_stick c log = (log ++ [c], Raise e).
Proof. intros H. unfold stick_call. by rewrite H. Qed.

(** The [try] block stops at the first stage that raises. *)
Lemma try_block_fails done failing rest e :
  stages = done ++ failing :: rest →
  (∀ c, c ∈ done → api_stick c = None) →
  api_stick failing = Some e →
  (async_add_executor_job api_stick connect ;;
   async_add_executor_job api_stick initialize_stick ;;
   async_add_executor_job api_stick initialize_circle_plus) []
  = (done ++ [failing], Raise e).
Proof.
  intros Hstages Hdone Hfail. unfold stages in Hstages.
  unfold async_add_executor_job, mbind, M_bind.
  destruct done as [|c1 [|c2 [|c3 done]]]; simplify_eq/=.
  - by rewrite (stick_call_raises _ _ _ Hfail).
  - rewrite (stick_call_returns connect) by (apply Hdone; by left).
    by rewrite (stick_call_raises _ _ _ Hfail).
  - rewrite (stick_call_returns connect) by (apply Hdone; by left).
    rewrite (stick_call_returns initialize_stick)
      by (apply Hdone; right; by left).
    by rewrite (stick_call_raises _ _ _ Hfail).
  - by destruct done.
Qed.

Lemma disconnect_not_stage done failing rest :
  stages = done ++ failing :: rest → disconnect ∉ done ++ [failing].
Proof.
  intros Hstages Hin.
  assert (Hsub : disconnect ∈ stages).
  { rewrite Hstages. apply elem_of_app.
    apply elem_of_app in Hin as [Hin | Hin%list_elem_of_singleton].
    - by left.
    - right. rewrite Hin. by left. }
  unfold stages in Hsub. rewrite !elem_of_cons, elem_of_nil in Hsub.
  by destruct Hsub as [? | [? | [? | []]]].
Qed.

Lemma filter_absent (c : call) (log : list call) :
  c ∉ log → filter (.= c) log = [].
Proof.
  induction log as [|c' log IH]; [done|].
  intros [Hne Hnot]%not_elem_of_cons.
  rewrite filter_cons_False by (intros ->; by apply Hne). by apply IH.
Qed.

(** C4: when a stage of the [try] block raises [PortError] the set-up
    ends in [ConfigEntryNotReady] and [disconnect] was never called;
    when it raises one of the four other handled exceptions,
    [disconnect] is called exactly once, as the last call, and then
    [ConfigEntryNotReady] is raised. *)
Theorem setup_failure_disconnects done failing rest e :
  stages = done ++ failing :: rest →
  (∀ c, c ∈ done → api_stick c = None) →
  api_stick failing = Some e →
  (e = PortError →
     async_setup_entry api_stick [] = (done ++ [failing], Raise ConfigEntryNotReady)
     ∧ disconnect ∉ (async_setup_entry api_stick []).1)
  ∧ (e ∈ disconnecting →
     (async_setup_entry api_stick []).1 = done ++ [failing] ++ [disconnect]
     ∧ List.length (filter (.= disconnect) (async_setup_entry api_stick []).1) = 1
     ∧ (api_stick disconnect = None →
        (async_setup_entry api_stick []).2 = Raise ConfigEntryNotReady)).
Proof.
  intros Hstages Hdone Hfail.
  pose proof (try_block_fails _ _ _ _ Hstages Hdone Hfail) as Hbody.
  pose proof (disconnect_not_stage _ _ _ Hstages) as Hfresh.
  split.
  - intros ->.
    assert (Hrun : async_setup_entry api_stick []
                   = (done ++ [failing], Raise ConfigEntryNotReady)).
    { unfold async_setup_entry.
      rewrite bind_run, try_except_run, Hbody. reflexivity. }
    rewrite Hrun. done.
  - intros He.
    assert (Hrun : async_setup_entry api_stick []
                   = ((done ++ [failing]) ++ [disconnect],
                      match api_stick disconnect with
                      | None => Raise ConfigEntryNotReady
                      | Some e' => Raise e'
                      end)).
    { unfold async_setup_entry.
      rewrite bind_run, try_except_run, Hbody.
      assert (Hcases : e = StickInitError ∨ e = NetworkDown
                       ∨ e = CirclePlusError ∨ e = TimeoutException).
      { unfold disconnecting in He.
        rewrite !elem_of_cons, elem_of_nil in He. tauto. }
      destruct Hcases as [-> | [-> | [-> | ->]]];
        rewrite bind_run; unfold async_add_executor_job, stick_call, raise;
        by destruct (api_stick disconnect). }
    rewrite Hrun. simpl. split; [by rewrite <- app_assoc|]. split.
    + rewrite filter_app, (filter_absent _ _ Hfresh).
      rewrite filter_cons_True by done. reflexivity.
    + by intros ->.
Qed.

End setup.

Lemma setup_failure_disconnects_witness :
  async_setup_entry (example_stick connect PortError) []
  = ([connect], Raise ConfigEntryNotReady)
  ∧ (async_setup_entry (example_stick initialize_stick StickInitError) []).1
    = [connect; initialize_stick; disconnect]
  ∧ (async_setup_entry (example_stick initialize_stick StickInitError) []).2
    = Raise ConfigEntryNotReady.
Proof.
  split; [|split].
  - apply (setup_failure_disconnects (example_stick connect PortError)
             [] connect [initialize_stick; initialize_circle_plus] PortError);
      [reflexivity | by intros c Hc%elem_of_nil | reflexivity | reflexivity].
  - apply (setup_failure_disconnects (example_stick initialize_stick StickInitError)
             [connect] initialize_stick [initialize_circle_plus] StickInitError);
      [reflexivity | by intros c ->%list_elem_of_singleton | reflexivity
      | by left].
  - apply (setup_failure_disconnects (example_stick initialize_stick StickInitError)
             [connect] initialize_stick [initialize_circle_plus] StickInitError);
      [reflexivity | by intros c ->%list_elem_of_singleton | reflexivity
      | by left | reflexivity].
Defined.

(** * Strings: suffixes and replacement *)

Lemma string_app_cons (c : ascii) (s1 s2 : string) :
  String c s1 +:+ s2 = String c (s1 +:+ s2).
Proof. reflexivity. Qed.

Lemma string_app_nil_l (s : string) : EmptyString +:+ s = s.
Proof. reflexivity. Qed.

Lemma string_app_nil_r (s : string) : s +:+ EmptyString = s.
Proof.
  induction s as [|c s IH]; [done|]. by rewrite string_app_cons, IH.
Qed.

Lemma string_length_app (s1 s2 : string) :
  String.length (s1 +:+ s2) = String.length s1 + String.length s2.
Proof.
  induction s1 as [|c s1 IH]; [done|].
  rewrite string_app_cons. simpl. by rewrite IH.
Qed.

Lemma prefix_app (s1 s2 : string) : String.prefix s1 (s1 +:+ s2) = true.
Proof.
  induction s1 as [|c s1 IH].
  - rewrite string_app_nil_l. by destruct s2.
  - rewrite string_app_cons. simpl. by destruct (ascii_dec c c).
Qed.

Lemma substring_front (front rest : string) :
  substring 0 (String.length front) (front +:+ rest) = front.
Proof.
  induction front as [|c front IH].
  - rewrite string_app_nil_l. by destruct rest.
  - rewrite string_app_cons. simpl. by rewrite IH.
Qed.

Lemma endswith_app (front suffix : string) : endswith (front +:+ suffix) suffix = true.
Proof.
  induction front as [|c front IH].
  - rewrite string_app_nil_l. destruct suffix; simpl; [done|].
    by rewrite Ascii.eqb_refl, String.eqb_refl.
  - rewrite string_app_cons. simpl. rewrite IH. apply orb_true_r.
Qed.

Lemma endswith_inv (s suffix : string) :
  endswith s suffix = true → ∃ front, s = front +:+ suffix.
Proof.
  induction s as [|c s IH]; cbn [endswith].
  - rewrite orb_false_r. intros <-%String.eqb_eq. by exists EmptyString.
  - intros [<-%String.eqb_eq | Htail]%orb_true_iff.
    + by exists EmptyString.
    + destruct (IH Htail) as [front ->]. by exists (String c front).
Qed.

(** Behind an occurrence, the scan passes the characters that are left of
    it and resumes. *)
Lemma replace_scan_skip (old new passed rest : string) :
  replace_scan old new (String.length passed) (passed +:+ rest)
  = replace_scan old new 0 rest.
Proof.
  induction passed as [|c passed IH]; [done|].
  rewrite string_app_cons. simpl. exact IH.
Qed.

(** The two equations of [str.replace] for a non-empty [old]. *)
Lemma replace_scan_occurrence (old new rest : string) :
  old ≠ EmptyString →
  replace_scan old new 0 (old +:+ rest) = new +:+ replace_scan old new 0 rest.
Proof.
  intros Hold. destruct old as [|c old]; [done|].
  rewrite string_app_cons. cbn [replace_scan].
  rewrite <- string_app_cons, prefix_app.
  replace (String.length (String c old) - 1) with (String.length old)
    by (simpl; lia).
  by rewrite replace_scan_skip.
Qed.

Lemma replace_scan_other (old new : string) (c : ascii) (s : string) :
  String.prefix old (String c s) = false →
  replace_scan old new 0 (String c s) = String c (replace_scan old new 0 s).
Proof. intros H. cbn [replace_scan]. by rewrite H. Qed.

(** Where the legacy suffix occurs at the end only, replacing it rewrites
    the suffix and nothing else. *)
Lemma replace_only_at_end (front old new : string) :
  old ≠ EmptyString →
  only_at_end old front = true →
  replace (front +:+ old) old new = front +:+ new.
Proof.
  intros Hold.
  assert (Hscan : replace (front +:+ old) old new
                  = replace_scan old new 0 (front +:+ old)).
  { unfold replace. by destruct old. }
  rewrite Hscan. clear Hscan.
  induction front as [|a front IH]; intros Hend.
  - rewrite !string_app_nil_l.
    rewrite <- (string_app_nil_r old) at 2.
    rewrite replace_scan_occurrence by done. simpl.
    by rewrite string_app_nil_r.
  - simpl in Hend. apply andb_true_iff in Hend as [Hhere Hlater].
    apply negb_true_iff in Hhere.
    rewrite string_app_cons in *.
    rewrite replace_scan_other by done. by rewrite IH.
Qed.

(** * The migration of unique ids *)

(** The example of the specification. *)
Example migrate_day_consumption :
  new_unique_id (async_migrate_entity_entry tt {| unique_id := "00:11-day_consumption" |})
  = Some "00:11-energy_consumption_today".
Proof. vm_compute. reflexivity. Qed.

(** The pairs are tried in table order and the first match decides. *)
Lemma migrate_loop_first_match before old new after entity_entry :
  Forall (fun pair => endswith (unique_id entity_entry) pair.1 = false) before →
  endswith (unique_id entity_entry) old = true →
  migrate_loop (before ++ (old, new) :: after) entity_entry
  = Some {[ "new_unique_id" := replace (unique_id entity_entry) old new ]}.
Proof.
  intros Hbefore Hold. induction Hbefore as [|[old' new'] before Hno _ IH]; simpl.
  - by rewrite Hold.
  - simpl in Hno. by rewrite Hno.
Qed.

(** An identifier that ends with no legacy suffix needs no migration. *)
Lemma migrate_loop_no_match table entity_entry :
  Forall (fun pair => endswith (unique_id entity_entry) pair.1 = false) table →
  migrate_loop table entity_entry = None.
Proof.
  induction 1 as [|[old new] table Hno _ IH]; simpl; [done|].
  simpl in Hno. by rewrite Hno.
Qed.

(** The code rewrites the suffix alone on every identifier in which the
    matching legacy suffix occurs at the end only. *)
Lemma migrate_loop_rewrites_suffix table entity_entry :
  (∀ old new front,
      (old, new) ∈ table →
      unique_id entity_entry = front +:+ old →
      old ≠ EmptyString ∧ only_at_end old front = true) →
  new_unique_id (migrate_loop table entity_entry)
  = rewrite_suffix table (unique_id entity_entry).
Proof.
  induction table as [|[old new] table IH]; intros Hend; simpl; [done|].
  destruct (endswith (unique_id entity_entry) old) eqn:Hold.
  - destruct (endswith_inv _ _ Hold) as [front Hfront].
    destruct (Hend old new front) as [Hne Honly]; [by left | done |].
    unfold new_unique_id. simpl. rewrite lookup_singleton_eq.
    rewrite Hfront, (replace_only_at_end front old new) by done.
    rewrite string_length_app, Nat.add_sub. by rewrite substring_front.
  - apply IH. intros old' new' front Hin Hid.
    apply (Hend old' new' front); [by right | done].
Qed.

(** Outside the identifiers that the integration makes, where the legacy
    suffix also occurs before the end, [replace] rewrites every
    occurrence; the rewrite of the suffix alone would leave the front as
    it is. *)
Remark migrate_rewrites_every_occurrence :
  new_unique_id (async_migrate_entity_entry tt {| unique_id := "rtt-rtt" |})
  = Some "ping-ping"
  ∧ rewrite_suffix conversion_list "rtt-rtt" = Some "rtt-ping".
Proof. split; vm_compute; reflexivity. Qed.

(** * The notification binary sensor *)

Lemma string_app_inj_r (s1 s2 suffix : string) :
  s1 +:+ suffix = s2 +:+ suffix → s1 = s2.
Proof.
  revert s2. induction s1 as [|c s1 IH]; intros [|c' s2] Heq.
  - done.
  - apply (f_equal String.length) in Heq.
    rewrite string_app_nil_l, string_length_app in Heq. simpl in Heq. lia.
  - apply (f_equal String.length) in Heq.
    rewrite string_app_nil_l, string_length_app in Heq. simpl in Heq. lia.
  - rewrite !string_app_cons in Heq. injection Heq as -> Heq.
    by rewrite (IH s2 Heq).
Qed.

Section notifications.

Import GWBinarySensor.

Variable SEVERITIES : list string.

Abbreviation buckets_ready := (buckets_ready SEVERITIES).

Hypothesis other_is_severity : "other" ∈ SEVERITIES.

Lemma severity_of_severity msg_type : severity_of SEVERITIES msg_type ∈ SEVERITIES.
Proof. unfold severity_of. by case_bool_decide. Qed.

Lemma apply_entry_ready entry self :
  buckets_ready self → buckets_ready (apply_entry SEVERITIES entry self).
Proof.
  intros Hready severity Hin. simpl.
  apply lookup_alter_is_Some, Hready, Hin.
Qed.

Lemma apply_entries_ready todo self :
  buckets_ready self → buckets_ready (apply_entries SEVERITIES todo self).
Proof.
  revert self. induction todo as [|entry todo IH]; intros self Hready; [done|].
  apply IH, apply_entry_ready, Hready.
Qed.

(** The body of the inner loop finds its bucket and so does not raise. *)
Lemma inner_body_run notify_id msg_type msg self :
  buckets_ready self →
  (let msg_type :=
     if bool_decide (msg_type ∈ SEVERITIES) then msg_type else "other" in
   append_attribute (upper msg_type +:+ "_msg") msg ;;
   set_notification_item notify_id (title msg_type +:+ ": " +:+ msg)) self
  = (apply_entry SEVERITIES (notify_id, (msg_type, msg)) self, Ok tt).
Proof.
  intros Hready. cbv zeta.
  fold (severity_of SEVERITIES msg_type).
  destruct (Hready _ (severity_of_severity msg_type)) as [bucket Hbucket].
  rewrite bind_run. unfold append_attribute.
  rewrite bind_run. unfold get_self at 1.
  rewrite bind_run. unfold lift, subscript. rewrite Hbucket.
  unfold set_attribute, set_notification_item, modify, apply_entry, formatted.
  simpl. do 2 f_equal. f_equal.
  apply map_eq. intros k.
  destruct (decide (k = upper (severity_of SEVERITIES msg_type) +:+ "_msg")) as [->|Hk].
  - by rewrite lookup_insert_eq, lookup_alter_eq, Hbucket.
  - by rewrite lookup_insert_ne, lookup_alter_ne.
Qed.

Lemma inner_loop_run notify_id (details : details) self :
  buckets_ready self →
  for_each details (fun '(msg_type, msg) =>
    let msg_type :=
      if bool_decide (msg_type ∈ SEVERITIES) then msg_type else "other" in
    append_attribute (upper msg_type +:+ "_msg") msg ;;
    set_notification_item notify_id (title msg_type +:+ ": " +:+ msg)) self
  = (apply_entries SEVERITIES (pair notify_id <$> details) self, Ok tt).
Proof.
  revert self. induction details as [|[msg_type msg] details IH]; intros self Hready.
  - reflexivity.
  - pose proof (inner_body_run notify_id msg_type msg self Hready) as Hbody.
    cbv zeta in Hbody.
    rewrite for_each_cons, bind_run. cbv beta iota zeta.
    rewrite Hbody, IH by by apply apply_entry_ready. reflexivity.
Qed.

Lemma outer_loop_run (notify : list (string * details)) self :
  buckets_ready self →
  for_each notify (fun '(notify_id, details) =>
    for_each details (fun '(msg_type, msg) =>
      let msg_type :=
        if bool_decide (msg_type ∈ SEVERITIES) then msg_type else "other" in
      append_attribute (upper msg_type +:+ "_msg") msg ;;
      set_notification_item notify_id (title msg_type +:+ ": " +:+ msg))) self
  = (apply_entries SEVERITIES (entries notify) self, Ok tt).
Proof.
  revert self. induction notify as [|[notify_id details] notify IH]; intros self Hready.
  - reflexivity.
  - pose proof (inner_loop_run notify_id details self Hready) as Hinner.
    rewrite for_each_cons, bind_run. cbv beta iota.
    rewrite Hinner, IH by by apply apply_entries_ready.
    unfold entries, apply_entries. simpl. by rewrite foldl_app.
Qed.

(** The loops leave the snapshot alone. *)
Lemma apply_entries_data todo self :
  _data (apply_entries SEVERITIES todo self) = _data self.
Proof.
  revert self. induction todo as [|entry todo IH]; intros self; [done|].
  unfold apply_entries in *. simpl. by rewrite IH.
Qed.

(** Last write wins in the per-id view. *)
Lemma apply_entries_notification todo self notify_id :
  _notification (apply_entries SEVERITIES todo self) !! notify_id
  = match last (filter (fun entry => entry.1 = notify_id) todo) with
    | Some entry => Some (formatted SEVERITIES entry.2)
    | None => _notification self !! notify_id
    end.
Proof.
  revert self. induction todo as [|entry todo IH]; intros self; [done|].
  change (apply_entries SEVERITIES (entry :: todo) self)
    with (apply_entries SEVERITIES todo (apply_entry SEVERITIES entry self)).
  rewrite IH. destruct (decide (entry.1 = notify_id)) as [Hid|Hid].
  - rewrite filter_cons_True by done. rewrite last_cons.
    destruct (last (filter _ todo)); [done|].
    simpl. by rewrite Hid, lookup_insert_eq.
  - rewrite filter_cons_False by done.
    destruct (last (filter _ todo)); [done|].
    simpl. by rewrite lookup_insert_ne.
Qed.

Section buckets.

Hypothesis upper_inj : ∀ s1 s2,
  s1 ∈ SEVERITIES → s2 ∈ SEVERITIES → upper s1 = upper s2 → s1 = s2.

(** Each bucket collects the messages of its own severity, in order. *)
Lemma apply_entries_bucket todo self severity bucket :
  severity ∈ SEVERITIES →
  _attributes self !! (upper severity +:+ "_msg") = Some bucket →
  _attributes (apply_entries SEVERITIES todo self) !! (upper severity +:+ "_msg")
  = Some (bucket ++ (filter (fun entry => severity_of SEVERITIES entry.2.1 = severity)
                       todo).*2.*2).
Proof.
  intros Hin. revert self bucket.
  induction todo as [|entry todo IH]; intros self bucket Hbucket.
  - simpl. by rewrite app_nil_r.
  - change (apply_entries SEVERITIES (entry :: todo) self)
      with (apply_entries SEVERITIES todo (apply_entry SEVERITIES entry self)).
    destruct (decide (severity_of SEVERITIES entry.2.1 = severity)) as [Hsev|Hsev].
    + rewrite filter_cons_True by done.
      rewrite (IH _ (bucket ++ [entry.2.2])).
      * by rewrite <- app_assoc.
      * simpl. by rewrite Hsev, lookup_alter_eq, Hbucket.
    + rewrite filter_cons_False by done.
      apply IH. simpl. rewrite lookup_alter_ne; [done|].
      intros Hkey%string_app_inj_r. apply Hsev.
      by apply upper_inj; [apply severity_of_severity| |].
Qed.

End buckets.

(** The [for severity in SEVERITIES] loop empties the bucket of every
    severity and raises nothing. *)
Lemma reset_attributes_lookup severities attributes severity :
  severity ∈ severities
  ∨ attributes !! (upper severity +:+ "_msg") = Some [] →
  reset_attributes severities attributes !! (upper severity +:+ "_msg") = Some [].
Proof.
  revert attributes.
  induction severities as [|severity' severities IH]; intros attributes Hcase.
  - destruct Hcase as [Hin|Hempty]; [by apply elem_of_nil in Hin | done].
  - unfold reset_attributes in *. simpl. apply IH.
    destruct (decide (upper severity' +:+ "_msg" = upper severity +:+ "_msg"))
      as [Hkey|Hkey].
    + right. by rewrite Hkey, lookup_insert_eq.
    + rewrite lookup_insert_ne by done.
      destruct Hcase as [Hin|Hempty]; [|by right].
      apply elem_of_cons in Hin as [->|Hin]; [done | by left].
Qed.

Lemma reset_loop_run severities self :
  for_each severities (fun severity =>
    set_attribute (upper severity +:+ "_msg") []) self
  = ({| _attributes := reset_attributes severities (_attributes self);
        _data := _data self;
        _notification := _notification self |}, Ok tt).
Proof.
  revert self. induction severities as [|severity severities IH]; intros self.
  - by destruct self.
  - rewrite for_each_cons, bind_run.
    unfold set_attribute at 1, modify at 1. by rewrite IH.
Qed.

Abbreviation cleared := (cleared SEVERITIES).

Lemma cleared_ready self : buckets_ready (cleared self).
Proof.
  intros severity Hin. simpl. rewrite reset_attributes_lookup; [done | by left].
Qed.

(** Without notifications the method answers [None]. *)
Lemma extra_state_attributes_none self :
  notifications (_data self).1 = None ∨ notifications (_data self).1 = Some [] →
  extra_state_attributes SEVERITIES self = (cleared self, Ok None).
Proof.
  intros Hnone. unfold extra_state_attributes.
  rewrite bind_run. unfold get_self at 1. cbv beta iota zeta.
  rewrite bind_run. unfold set_notification at 1, modify at 1.
  rewrite bind_run, reset_loop_run. cbn [_attributes _data _notification].
  by destruct Hnone as [-> | ->].
Qed.

(** The whole method, as one run. *)
Lemma extra_state_attributes_run self :
  extra_state_attributes SEVERITIES self
  = match notifications (_data self).1 with
    | Some (first :: notify) =>
        let self' :=
          apply_entries SEVERITIES (entries (first :: notify)) (cleared self) in
        (self', Ok (Some (_attributes self')))
    | _ => (cleared self, Ok None)
    end.
Proof.
  unfold extra_state_attributes.
  rewrite bind_run. unfold get_self at 1. cbv beta iota zeta.
  rewrite bind_run. unfold set_notification at 1, modify at 1.
  rewrite bind_run, reset_loop_run. cbn [_attributes _data _notification].
  fold (cleared self).
  destruct (notifications (_data self).1) as [[|first notify]|]; [done| |done].
  rewrite bind_run, outer_loop_run by apply cleared_ready.
  reflexivity.
Qed.

End notifications.

(** ** The two views *)

Lemma entries_elem (notify : list (string * details)) notify_id details entry :
  (notify_id, details) ∈ notify → entry ∈ details →
  (notify_id, entry) ∈ entries notify.
Proof.
  intros Hin Hentry. induction notify as [|[id' details'] notify IH].
  - by apply elem_of_nil in Hin.
  - unfold entries. simpl. apply elem_of_app.
    apply elem_of_cons in Hin as [[= <- <-]|Hin].
    + left. by apply list_elem_of_fmap_2.
    + right. by apply IH.
Qed.

Lemma filter_entries_same notify_id (details : details) :
  (filter (fun entry : string * (string * string) => entry.1 = notify_id)
     (pair notify_id <$> details)).*2 = details.
Proof.
  induction details as [|entry details IH]; [done|].
  rewrite fmap_cons, filter_cons_True by done.
  rewrite fmap_cons. simpl snd. by rewrite IH.
Qed.

Lemma filter_entries_other id' notify_id (details : details) :
  id' ≠ notify_id →
  filter (fun entry : string * (string * string) => entry.1 = notify_id)
    (pair id' <$> details) = [].
Proof.
  intros Hne. induction details as [|entry details IH]; [done|].
  by rewrite fmap_cons, filter_cons_False.
Qed.

Lemma entries_cons notify_id (items : details) (notify : list (string * details)) :
  entries ((notify_id, items) :: notify)
  = (pair notify_id <$> items) ++ entries notify.
Proof. reflexivity. Qed.

Lemma entries_of_absent (notify : list (string * details)) notify_id :
  notify_id ∉ notify.*1 → entries_of notify_id notify = [].
Proof.
  induction notify as [|[id' details'] notify IH]; [done|].
  rewrite fmap_cons. intros [Hne Hnot]%not_elem_of_cons. simpl in Hne.
  unfold entries_of in *. rewrite entries_cons, filter_app, fmap_app.
  rewrite (IH Hnot), app_nil_r.
  by rewrite filter_entries_other.
Qed.

(** In a dictionary, where no key occurs twice, the entries of an id are
    the value it is mapped to. *)
Lemma entries_of_NoDup (notify : list (string * details)) notify_id details :
  NoDup notify.*1 → (notify_id, details) ∈ notify →
  entries_of notify_id notify = details.
Proof.
  induction notify as [|[id' details'] notify IH]; intros Hnodup Hin.
  - by apply elem_of_nil in Hin.
  - rewrite fmap_cons in Hnodup. apply NoDup_cons in Hnodup as [Hfresh Hnodup].
    simpl in Hfresh.
    unfold entries_of. rewrite entries_cons, filter_app, fmap_app.
    apply elem_of_cons in Hin as [[= <- <-]|Hin].
    + fold (entries_of notify_id notify).
      by rewrite (entries_of_absent _ _ Hfresh), app_nil_r, filter_entries_same.
    + fold (entries_of notify_id notify). rewrite (IH Hnodup Hin).
      rewrite filter_entries_other; [done|].
      intros ->. apply Hfresh. by apply (list_elem_of_fmap_2 fst) in Hin.
Qed.

(** C6: without notifications the grouped view is absent; with
    notifications the returned mapping has, for every severity, an entry
    keyed by the upper-cased severity and [_msg] that holds the messages of
    that severity in order, and a message whose tag is no severity is in
    the bucket [OTHER_msg].  (The list of severities is a constant of the
    integration that contains other and no two members equal up to case.) *)
Theorem grouped_by_severity (SEVERITIES : list string) (self : GWBinarySensor.t) :
  (notifications (GWBinarySensor._data self).1 = None
   ∨ notifications (GWBinarySensor._data self).1 = Some [] →
   (GWBinarySensor.extra_state_attributes SEVERITIES self).2 = Ok None)
  ∧ (∀ notify,
       notifications (GWBinarySensor._data self).1 = Some notify →
       notify ≠ [] →
       "other" ∈ SEVERITIES →
       (∀ s1 s2, s1 ∈ SEVERITIES → s2 ∈ SEVERITIES → upper s1 = upper s2 → s1 = s2) →
       ∃ attributes,
         (GWBinarySensor.extra_state_attributes SEVERITIES self).2
         = Ok (Some attributes)
         ∧ (∀ severity, severity ∈ SEVERITIES →
              attributes !! (upper severity +:+ "_msg")
              = Some (messages_of SEVERITIES severity notify))
         ∧ (∀ notify_id details msg_type msg,
              (notify_id, details) ∈ notify → (msg_type, msg) ∈ details →
              msg_type ∉ SEVERITIES →
              ∃ bucket, attributes !! "OTHER_msg" = Some bucket ∧ msg ∈ bucket)).
Proof.
  split.
  - intros Hnone. by rewrite (extra_state_attributes_none SEVERITIES self Hnone).
  - intros notify Hnotify Hnonempty Hother Hinj.
    rewrite (extra_state_attributes_run SEVERITIES Hother self), Hnotify.
    destruct notify as [|first notify]; [done|]. cbv zeta. simpl snd.
    eexists. split; [reflexivity|].
    assert (Hbuckets : ∀ severity, severity ∈ SEVERITIES →
      GWBinarySensor._attributes
        (apply_entries SEVERITIES (entries (first :: notify)) (cleared SEVERITIES self))
        !! (upper severity +:+ "_msg")
      = Some (messages_of SEVERITIES severity (first :: notify))).
    { intros severity Hin.
      rewrite (apply_entries_bucket SEVERITIES Hother Hinj _ _ severity []); [done..|].
      simpl. rewrite reset_attributes_lookup; [done | by left]. }
    split; [exact Hbuckets|].
    intros notify_id details msg_type msg Hin Hentry Hunknown.
    exists (messages_of SEVERITIES "other" (first :: notify)).
    split; [exact (Hbuckets "other" Hother)|].
    unfold messages_of.
    apply (list_elem_of_fmap_2' snd _ (msg_type, msg)); [|done].
    apply (list_elem_of_fmap_2' snd _ (notify_id, (msg_type, msg))); [|done].
    apply list_elem_of_filter. split; [|by apply entries_elem with details].
    unfold severity_of. simpl. by rewrite bool_decide_eq_false_2.
Qed.

(** C7: after the method ran, the per-id view maps every notification id
    to the text of its last entry, the title-cased severity, a colon and
    the message; the earlier entries of the id are overwritten.  (The
    notifications are a dictionary: no id occurs twice.) *)
Theorem notification_last_entry_wins (SEVERITIES : list string)
    (self : GWBinarySensor.t) (notify : list (string * details)) :
  notifications (GWBinarySensor._data self).1 = Some notify →
  "other" ∈ SEVERITIES →
  NoDup notify.*1 →
  ∀ notify_id details,
    (notify_id, details) ∈ notify →
    GWBinarySensor.notification (GWBinarySensor.extra_state_attributes SEVERITIES self).1
      !! notify_id
    = (fun '(msg_type, msg) =>
         title (severity_of SEVERITIES msg_type) +:+ ": " +:+ msg) <$> last details.
Proof.
  intros Hnotify Hother Hnodup notify_id details Hin.
  rewrite (extra_state_attributes_run SEVERITIES Hother self), Hnotify.
  destruct notify as [|first notify]; [by apply elem_of_nil in Hin|].
  cbv beta iota zeta. cbn [fst]. unfold GWBinarySensor.notification.
  rewrite (apply_entries_notification SEVERITIES).
  pose proof (entries_of_NoDup _ _ _ Hnodup Hin) as Hentries.
  unfold entries_of in Hentries.
  rewrite <- Hentries, fmap_last.
  destruct (last (filter _ (entries (first :: notify)))) as [[id' [msg_type msg]]|];
    reflexivity.
Qed.

Lemma example_severities_upper_inj s1 s2 :
  s1 ∈ example_severities → s2 ∈ example_severities → upper s1 = upper s2 → s1 = s2.
Proof.
  unfold example_severities. rewrite !elem_of_cons, !elem_of_nil.
  intros [-> | [-> | [-> | [-> | []]]]] [-> | [-> | [-> | [-> | []]]]] Hupper;
    first [reflexivity | vm_compute in Hupper; discriminate Hupper].
Qed.

Lemma grouped_by_severity_witness :
  (GWBinarySensor.extra_state_attributes example_severities
     (GWBinarySensor.init (example_gateway None VNone, ∅))).2 = Ok None
  ∧ ∃ attributes,
      (GWBinarySensor.extra_state_attributes example_severities example_sensor).2
      = Ok (Some attributes)
      ∧ attributes !! "WARNING_msg" = Some ["low battery"]
      ∧ attributes !! "INFO_msg" = Some ["update available"]
      ∧ attributes !! "ERROR_msg" = Some []
      ∧ ∃ bucket, attributes !! "OTHER_msg" = Some bucket ∧ "unparsed" ∈ bucket.
Proof.
  split.
  - apply (proj1 (grouped_by_severity example_severities
                    (GWBinarySensor.init (example_gateway None VNone, ∅)))).
    left. reflexivity.
  - destruct (proj2 (grouped_by_severity example_severities example_sensor)
                example_notify eq_refl ltac:(discriminate)
                ltac:(by left) example_severities_upper_inj)
      as (attributes & Hrun & Hbuckets & Hother).
    exists attributes. split; [exact Hrun|].
    split; [apply (Hbuckets "warning"); right; right; by left|].
    split; [apply (Hbuckets "info"); right; by left|].
    split; [apply (Hbuckets "error"); right; right; right; by left|].
    apply (Hother "n1" [("warning", "low battery"); ("weird", "unparsed")] "weird").
    + by left.
    + right. by left.
    + unfold example_severities. rewrite !not_elem_of_cons.
      repeat split; try discriminate. apply not_elem_of_nil.
Defined.

Lemma notification_last_entry_wins_witness :
  GWBinarySensor.notification
    (GWBinarySensor.extra_state_attributes example_severities example_sensor).1 !! "n1"
  = Some "Other: unparsed"
  ∧ GWBinarySensor.notification
      (GWBinarySensor.extra_state_attributes example_severities example_sensor).1 !! "n2"
    = Some "Info: update available".
Proof.
  assert (Hnodup : NoDup example_notify.*1).
  { apply NoDup_cons_2; [by intros [=]%list_elem_of_singleton | apply NoDup_singleton]. }
  split.
  - apply (notification_last_entry_wins example_severities example_sensor
             example_notify eq_refl ltac:(by left) Hnodup
             "n1" [("warning", "low battery"); ("weird", "unparsed")]).
    by left.
  - apply (notification_last_entry_wins example_severities example_sensor
             example_notify eq_refl ltac:(by left) Hnodup
             "n2" [("info", "update available")]).
    right. by left.
Defined.

(** * More on the helpers of smile_helpers.py *)

Section icons_binary_sensor.

Variables COOLING_ICON FLAME_ICON FLOW_OFF_ICON FLOW_ON_ICON : string.
Variables HEATING_ICON IDLE_ICON NO_NOTIFICATION_ICON NOTIFICATION_ICON : string.

Let icon_selector :=
  icon_selector COOLING_ICON FLAME_ICON FLOW_OFF_ICON FLOW_ON_ICON
    HEATING_ICON IDLE_ICON NO_NOTIFICATION_ICON NOTIFICATION_ICON.

(** X1: for the four binary-sensor categories the icon follows the truth
    value of [state], which may be any value: the active icon when it is
    truthy, the inactive icon otherwise. *)
Theorem icon_selector_binary_sensor (state : value) :
  icon_selector "dhw_state" state
  = Some (if truthy state then FLOW_ON_ICON else FLOW_OFF_ICON)
  ∧ icon_selector "flame_state" state
    = Some (if truthy state then FLAME_ICON else IDLE_ICON)
  ∧ icon_selector "slave_boiler_state" state
    = Some (if truthy state then FLAME_ICON else IDLE_ICON)
  ∧ icon_selector "plugwise_notification" state
    = Some (if truthy state then NOTIFICATION_ICON else NO_NOTIFICATION_ICON).
Proof. repeat split; vm_compute; reflexivity. Qed.

End icons_binary_sensor.

(** X2: [get_preset_temp] answers a value exactly when the table holds
    the preset and its entry has the element asked for, and then the
    answer is that element: there is no default. *)
Theorem get_preset_temp_ok preset cooling_active data v :
  get_preset_temp preset cooling_active data = Ok v
  ↔ ∃ table setpoints,
      presets data = Some table
      ∧ table !! preset = Some setpoints
      ∧ setpoints !! (if truthy cooling_active then 1 else 0) = Some v.
Proof.
  unfold get_preset_temp, preset_item, item. split.
  - intros Hok. destruct (presets data) as [table|] eqn:Hd.
    + destruct (table !! preset) as [setpoints|] eqn:Ht.
      * exists table, setpoints. repeat split; [done|].
        destruct (truthy cooling_active);
          [destruct (setpoints !! 1) | destruct (setpoints !! 0)]; congruence.
      * by destruct (truthy cooling_active).
    + by destruct (truthy cooling_active).
  - intros (table & setpoints & -> & -> & Hv).
    destruct (truthy cooling_active); by rewrite Hv.
Qed.

(** X3: the two other ways in which [get_preset_temp] fails: with
    [KeyError] when the data has no presets at all, with [IndexError]
    when the entry of the preset is too short for the element. *)
Theorem get_preset_temp_errors preset cooling_active data :
  (presets data = None →
   get_preset_temp preset cooling_active data = Raise KeyError)
  ∧ (∀ table setpoints,
       presets data = Some table →
       table !! preset = Some setpoints →
       (List.length setpoints <= (if truthy cooling_active then 1 else 0))%nat →
       get_preset_temp preset cooling_active data = Raise IndexError).
Proof.
  unfold get_preset_temp, preset_item, item. split.
  - intros ->. by destruct (truthy cooling_active).
  - intros table setpoints -> -> Hshort.
    destruct (truthy cooling_active);
      by rewrite (lookup_ge_None_2 setpoints _ Hshort).
Qed.

Lemma get_preset_temp_errors_witness :
  get_preset_temp "away" (VBool true)
    {| gateway_id := None; heater_id := None; active_device := None;
       notifications := None; presets := None |} = Raise KeyError
  ∧ get_preset_temp "away" (VBool true)
      {| gateway_id := None; heater_id := None; active_device := None;
         notifications := None; presets := Some {[ "away" := [VInt 10] ]} |}
    = Raise IndexError.
Proof.
  split.
  - apply (proj1 (get_preset_temp_errors "away" (VBool true) _)). reflexivity.
  - apply (proj2 (get_preset_temp_errors "away" (VBool true) _)
             {[ "away" := [VInt 10] ]} [VInt 10]); [reflexivity.. | simpl; lia].
Defined.

Section thermostat_more.

Import GWThermostat.

Variables (data : gw_data) (dev_id : string).
Let self := init data dev_id.

Lemma dict_has_absent {V} (d : gmap string V) k :
  d !! k = None → dict_has d k = false.
Proof. intros H. apply bool_decide_eq_false. rewrite H. by intros [? ?]. Qed.

(** X4: a device without [control_state] gets the flags of the heater:
    the heater's [heating_state] and [cooling_state], and [None] for a
    flag that the heater does not report. *)
Theorem states_default_to_heater v heater_id' heater device :
  active_device data.1 = Some v →
  truthy v = true →
  heater_id data.1 = Some heater_id' →
  data.2 !! heater_id' = Some heater →
  data.2 !! dev_id = Some device →
  device !! "control_state" = None →
  heating_state self = Ok (default VNone (heater !! "heating_state"))
  ∧ cooling_state self = Ok (default VNone (heater !! "cooling_state")).
Proof.
  intros Hv Ht Hh Hheater Hdev Hcontrol.
  unfold heating_state, cooling_state.
  unfold self. rewrite (active_device_flag_init data dev_id v Hv).
  simpl. rewrite Ht, Hh. simpl.
  unfold subscript. rewrite Hheater, Hdev. simpl.
  by rewrite (dict_has_absent _ _ Hcontrol).
Qed.


(** X6: the active-device flag is subscripted, not read with [get]: data
    without the key make both projections raise [KeyError], whatever the
    per-device dictionaries hold. *)
Theorem states_raise_without_flag :
  active_device data.1 = None →
  heating_state self = Raise KeyError ∧ cooling_state self = Raise KeyError.
Proof.
  intros Hnone. unfold heating_state, cooling_state, active_device_flag.
  simpl. by rewrite Hnone.
Qed.

(** X7: [cooling_active] guards the null heater id only: with a heater
    id that is no key of the per-device dictionaries it raises
    [KeyError]; with one that is a key it answers the heater's
    [cooling_active], or [None] when the heater does not report it; the
    active-device flag plays no part. *)
Theorem cooling_active_with_heater heater_id' :
  heater_id data.1 = Some heater_id' →
  (data.2 !! heater_id' = None → cooling_active self = Raise KeyError)
  ∧ (∀ heater, data.2 !! heater_id' = Some heater →
       cooling_active self = Ok (default VNone (heater !! "cooling_active"))).
Proof.
  intros Hh. unfold cooling_active. simpl. rewrite Hh. unfold subscript.
  split; [by intros -> | by intros heater ->].
Qed.

End thermostat_more.

Lemma states_default_to_heater_witness :
  GWThermostat.heating_state
    (GWThermostat.init (example_gateway (Some "heater") (VBool true),
                        <["zone" := ∅]> (example_devices "heating")) "zone")
  = Ok (VBool false)
  ∧ GWThermostat.cooling_state
      (GWThermostat.init (example_gateway (Some "heater") (VBool true),
                          <["zone" := ∅]> (example_devices "heating")) "zone")
    = Ok (VBool true).
Proof.
  exact (states_default_to_heater
           (example_gateway (Some "heater") (VBool true),
            <["zone" := ∅]> (example_devices "heating")) "zone"
           (VBool true) "heater"
           (<["cooling_state" := VBool true]> {[ "heating_state" := VBool false ]}) ∅
           eq_refl eq_refl eq_refl eq_refl eq_refl eq_refl).
Defined.


Lemma states_raise_without_flag_witness :
  let data : gw_data :=
    ({| gateway_id := None; heater_id := Some "heater"; active_device := None;
        notifications := None; presets := None |}, example_devices "heating") in
  GWThermostat.heating_state (GWThermostat.init data "zone") = Raise KeyError
  ∧ GWThermostat.cooling_state (GWThermostat.init data "zone") = Raise KeyError.
Proof.
  apply (states_raise_without_flag
           ({| gateway_id := None; heater_id := Some "heater"; active_device := None;
               notifications := None; presets := None |}, example_devices "heating")
           "zone").
  reflexivity.
Defined.

Lemma cooling_active_with_heater_witness :
  GWThermostat.cooling_active
    (GWThermostat.init (example_gateway (Some "boiler") (VBool false),
                        example_devices "heating") "zone") = Raise KeyError
  ∧ GWThermostat.cooling_active
      (GWThermostat.init (example_gateway (Some "heater") (VBool false),
                          example_devices "heating") "zone") = Ok VNone.
Proof.
  split.
  - apply (proj1 (cooling_active_with_heater
                    (example_gateway (Some "boiler") (VBool false),
                     example_devices "heating") "zone" "boiler" eq_refl)).
    reflexivity.
  - exact (proj2 (cooling_active_with_heater
                    (example_gateway (Some "heater") (VBool false),
                     example_devices "heating") "zone" "heater" eq_refl)
             (<["cooling_state" := VBool true]> {[ "heating_state" := VBool false ]})
             eq_refl).
Defined.

(** * More on the notification binary sensor *)

Section notifications_more.

Import GWBinarySensor.

Variable SEVERITIES : list string.

(** X9: when the snapshot has no notifications the per-id view is emptied,
    whatever an earlier call left in it: no stale text survives. *)
Theorem notification_view_cleared (self : t) :
  notifications (_data self).1 = None ∨ notifications (_data self).1 = Some [] →
  notification (extra_state_attributes SEVERITIES self).1 = ∅.
Proof.
  intros Hnone. by rewrite (extra_state_attributes_none SEVERITIES self Hnone).
Qed.

(** The bucket keys are reset to the empty list, every other key of the
    attributes is left as it is. *)
Lemma reset_attributes_lookup_key severities (attributes : gmap string (list string)) k :
  reset_attributes severities attributes !! k
  = if decide (k ∈ (fun severity => upper severity +:+ "_msg") <$> severities)
    then Some [] else attributes !! k.
Proof.
  revert attributes. induction severities as [|severity severities IH]; intros attributes.
  - reflexivity.
  - change (reset_attributes (severity :: severities) attributes)
      with (reset_attributes severities
              (<[upper severity +:+ "_msg" := []]> attributes)).
    rewrite IH, fmap_cons.
    destruct (decide (k ∈ (fun severity => upper severity +:+ "_msg") <$> severities))
      as [Hin|Hin].
    + rewrite decide_True; [done | by right].
    + destruct (decide (k = upper severity +:+ "_msg")) as [->|Hne].
      * rewrite lookup_insert_eq. rewrite decide_True; [done | by left].
      * rewrite lookup_insert_ne by done. rewrite decide_False; [done|].
        intros [?|?]%elem_of_cons; [done | by apply Hin].
Qed.

Hypothesis other_is_severity : "other" ∈ SEVERITIES.

(** The loops touch no key of the attributes but the bucket keys. *)
Lemma apply_entries_lookup_other todo (self : t) k :
  k ∉ (fun severity => upper severity +:+ "_msg") <$> SEVERITIES →
  _attributes (apply_entries SEVERITIES todo self) !! k = _attributes self !! k.
Proof.
  intros Hk. revert self. induction todo as [|entry todo IH]; intros self; [done|].
  change (apply_entries SEVERITIES (entry :: todo) self)
    with (apply_entries SEVERITIES todo (apply_entry SEVERITIES entry self)).
  rewrite IH. simpl. apply lookup_alter_ne. intros <-. apply Hk.
  apply (list_elem_of_fmap_2 (fun severity => upper severity +:+ "_msg")).
  by apply severity_of_severity.
Qed.

Lemma apply_entries_is_Some todo (self : t) k :
  is_Some (_attributes (apply_entries SEVERITIES todo self) !! k)
  ↔ is_Some (_attributes self !! k).
Proof.
  revert self. induction todo as [|entry todo IH]; intros self; [done|].
  change (apply_entries SEVERITIES (entry :: todo) self)
    with (apply_entries SEVERITIES todo (apply_entry SEVERITIES entry self)).
  rewrite IH. simpl. apply lookup_alter_is_Some.
Qed.

(** The per-id view after the method ran, for every id. *)
Lemma notification_view_after_run (self : t) notify notify_id :
  notifications (_data self).1 = Some notify →
  notification (extra_state_attributes SEVERITIES self).1 !! notify_id
  = formatted SEVERITIES <$> last (entries_of notify_id notify).
Proof.
  intros Hnotify. destruct notify as [|first notify].
  - rewrite (extra_state_attributes_none SEVERITIES self) by by right.
    apply lookup_empty.
  - rewrite (extra_state_attributes_run SEVERITIES other_is_severity self), Hnotify.
    cbv beta iota zeta. cbn [fst]. unfold notification.
    rewrite (apply_entries_notification SEVERITIES).
    unfold entries_of. rewrite fmap_last.
    destruct (last (filter _ (entries (first :: notify)))); [done|].
    apply lookup_empty.
Qed.

(** X8: after the method ran, the per-id view has a text for exactly the
    ids that the snapshot maps to at least one entry; the ids of an
    earlier call that are gone from the snapshot are gone from the view. *)
Theorem notification_view_exact (self : t) (notify : list (string * details)) :
  notifications (_data self).1 = Some notify →
  NoDup notify.*1 →
  ∀ notify_id,
    is_Some (notification (extra_state_attributes SEVERITIES self).1 !! notify_id)
    ↔ ∃ items, (notify_id, items) ∈ notify ∧ items ≠ [].
Proof.
  intros Hnotify Hnodup notify_id.
  rewrite (notification_view_after_run self notify notify_id Hnotify).
  rewrite fmap_is_Some, last_is_Some. split.
  - intros Hentries.
    destruct (decide (notify_id ∈ notify.*1)) as [Hin|Hout].
    + apply list_elem_of_fmap in Hin as ([id' items] & -> & Hin).
      exists items. split; [done|].
      by rewrite <- (entries_of_NoDup notify id' items Hnodup Hin).
    + by rewrite (entries_of_absent notify notify_id Hout) in Hentries.
  - intros (items & Hin & Hitems).
    by rewrite (entries_of_NoDup notify notify_id items Hnodup Hin).
Qed.

(** X10: on a freshly constructed sensor the returned mapping has the
    bucket keys of the severities and no other key. *)
Theorem attributes_are_severity_buckets (data : gw_data) notify :
  notifications data.1 = Some notify →
  notify ≠ [] →
  ∃ attributes,
    (extra_state_attributes SEVERITIES (init data)).2 = Ok (Some attributes)
    ∧ ∀ k, is_Some (attributes !! k)
           ↔ ∃ severity, severity ∈ SEVERITIES ∧ k = upper severity +:+ "_msg".
Proof.
  intros Hnotify Hnonempty.
  rewrite (extra_state_attributes_run SEVERITIES other_is_severity (init data)).
  simpl _data. rewrite Hnotify.
  destruct notify as [|first notify]; [done|]. cbv beta iota zeta. cbn [snd].
  eexists. split; [reflexivity|]. intros k.
  rewrite apply_entries_is_Some. simpl.
  rewrite reset_attributes_lookup_key.
  destruct (decide (k ∈ (fun severity => upper severity +:+ "_msg") <$> SEVERITIES))
    as [Hin|Hin].
  - split; [intros _ | by eexists].
    apply list_elem_of_fmap in Hin as (severity & -> & Hin). by exists severity.
  - rewrite lookup_empty. split; [by intros [? ?]|].
    intros (severity & Hsev & ->). destruct Hin.
    by apply (list_elem_of_fmap_2 (fun severity => upper severity +:+ "_msg")).
Qed.

Lemma cleared_again (self self' : t) :
  _data self' = _data self →
  (∀ k, k ∉ (fun severity => upper severity +:+ "_msg") <$> SEVERITIES →
        _attributes self' !! k = _attributes self !! k) →
  cleared SEVERITIES self' = cleared SEVERITIES self.
Proof.
  intros Hdata Hother. unfold cleared. rewrite Hdata. f_equal.
  apply map_eq. intros k. rewrite !reset_attributes_lookup_key.
  case_decide; [done | by apply Hother].
Qed.

(** X11: the method is idempotent: run again on the sensor that it left,
    with the snapshot unchanged, it returns the same result and leaves the
    same sensor. *)
Theorem extra_state_attributes_idempotent (self : t) :
  extra_state_attributes SEVERITIES (extra_state_attributes SEVERITIES self).1
  = extra_state_attributes SEVERITIES self.
Proof.
  assert (Hcleared : ∀ k,
    k ∉ (fun severity => upper severity +:+ "_msg") <$> SEVERITIES →
    _attributes (cleared SEVERITIES self) !! k = _attributes self !! k).
  { intros k Hk. simpl. rewrite reset_attributes_lookup_key. by rewrite decide_False. }
  rewrite !(extra_state_attributes_run SEVERITIES other_is_severity).
  destruct (notifications (_data self).1) as [[|first notify]|] eqn:Hnotify.
  - cbn [fst]. simpl _data. rewrite Hnotify.
    by rewrite (cleared_again self (cleared SEVERITIES self)).
  - cbv beta iota zeta. cbn [fst].
    rewrite apply_entries_data. simpl _data. rewrite Hnotify.
    rewrite (cleared_again self); [done | by rewrite apply_entries_data |].
    intros k Hk. by rewrite apply_entries_lookup_other, Hcleared.
  - cbn [fst]. simpl _data. rewrite Hnotify.
    by rewrite (cleared_again self (cleared SEVERITIES self)).
Qed.

End notifications_more.

Lemma notification_view_cleared_witness :
  GWBinarySensor.notification
    (GWBinarySensor.extra_state_attributes example_severities
       {| GWBinarySensor._attributes := ∅;
          GWBinarySensor._data := (example_gateway None VNone, ∅);
          GWBinarySensor._notification := {[ "n0" := "Error: stale" ]} |}).1 = ∅.
Proof.
  apply (notification_view_cleared example_severities). left. reflexivity.
Defined.

Lemma example_notify_NoDup : NoDup example_notify.*1.
Proof.
  apply NoDup_cons_2; [by intros [=]%list_elem_of_singleton | apply NoDup_singleton].
Qed.

Lemma notification_view_exact_witness :
  is_Some (GWBinarySensor.notification
             (GWBinarySensor.extra_state_attributes example_severities example_sensor).1
             !! "n2")
  ∧ ¬ is_Some (GWBinarySensor.notification
                 (GWBinarySensor.extra_state_attributes example_severities
                    example_sensor).1 !! "n0").
Proof.
  pose proof (notification_view_exact example_severities ltac:(by left)
                example_sensor example_notify eq_refl example_notify_NoDup) as Hexact.
  split.
  - apply Hexact. exists [("info", "update available")]. split; [|done].
    right. by left.
  - intros (items & Hin & _)%Hexact.
    unfold example_notify in Hin. rewrite !elem_of_cons, elem_of_nil in Hin.
    by destruct Hin as [[=] | [[=] | []]].
Defined.

Lemma attributes_are_severity_buckets_witness :
  ∃ attributes,
    (GWBinarySensor.extra_state_attributes example_severities example_sensor).2
    = Ok (Some attributes)
    ∧ is_Some (attributes !! "ERROR_msg")
    ∧ ¬ is_Some (attributes !! "stale_msg").
Proof.
  destruct (attributes_are_severity_buckets example_severities ltac:(by left)
              (GWBinarySensor._data example_sensor) example_notify eq_refl
              ltac:(discriminate)) as (attributes & Hrun & Hkeys).
  exists attributes. split; [exact Hrun|]. split.
  - apply Hkeys. exists "error". split; [|reflexivity]. right; right; right; by left.
  - intros (severity & Hin & Hkey)%Hkeys.
    unfold example_severities in Hin. rewrite !elem_of_cons, elem_of_nil in Hin.
    by destruct Hin as [-> | [-> | [-> | [-> | []]]]].
Defined.

Lemma extra_state_attributes_idempotent_witness :
  GWBinarySensor.extra_state_attributes example_severities
    (GWBinarySensor.extra_state_attributes example_severities example_sensor).1
  = GWBinarySensor.extra_state_attributes example_severities example_sensor.
Proof.
  apply (extra_state_attributes_idempotent example_severities). by left.
Defined.

(** * More on the set-up of the stick *)

Section setup_more.

Variable api_stick : call → option exn.

(** X12: when the three stages and the scan return, the set-up answers
    [True] after exactly these four calls in this order, and the stick is
    not disconnected. *)
Theorem setup_succeeds :
  (∀ c, c ∈ stages → api_stick c = None) →
  api_stick scan = None →
  async_setup_entry api_stick []
  = ([connect; initialize_stick; initialize_circle_plus; scan], Ok true).
Proof.
  intros Hstages Hscan. unfold async_setup_entry.
  rewrite bind_run, try_except_run.
  unfold async_add_executor_job.
  rewrite bind_run, (stick_call_returns api_stick connect)
    by (apply Hstages; by left).
  rewrite bind_run, (stick_call_returns api_stick initialize_stick)
    by (apply Hstages; right; by left).
  rewrite (stick_call_returns api_stick initialize_circle_plus)
    by (apply Hstages; right; right; by left).
  rewrite bind_run, (stick_call_returns api_stick scan) by done.
  reflexivity.
Qed.

(** The run of the set-up after the first stage that raises. *)
Lemma setup_run_failure done failing rest e :
  stages = done ++ failing :: rest →
  (∀ c, c ∈ done → api_stick c = None) →
  api_stick failing = Some e →
  async_setup_entry api_stick []
  = match e with
    | PortError => (done ++ [failing], Raise ConfigEntryNotReady)
    | StickInitError | NetworkDown | CirclePlusError | TimeoutException =>
        ((done ++ [failing]) ++ [disconnect],
         match api_stick disconnect with
         | None => Raise ConfigEntryNotReady
         | Some e' => Raise e'
         end)
    | _ => (done ++ [failing], Raise e)
    end.
Proof.
  intros Hstages Hdone Hfail.
  pose proof (try_block_fails api_stick _ _ _ _ Hstages Hdone Hfail) as Hbody.
  unfold async_setup_entry. rewrite bind_run, try_except_run, Hbody.
  destruct e; try reflexivity;
    rewrite bind_run; unfold async_add_executor_job, stick_call, raise;
    by destruct (api_stick disconnect).
Qed.

(** X13: an exception of a stage for which the [try] has no clause leaves
    the set-up as it is: the stick is not disconnected and the scan is not
    started. *)
Theorem setup_unhandled_exception_propagates done failing rest e :
  stages = done ++ failing :: rest →
  (∀ c, c ∈ done → api_stick c = None) →
  api_stick failing = Some e →
  e ≠ PortError →
  e ∉ disconnecting →
  async_setup_entry api_stick [] = (done ++ [failing], Raise e).
Proof.
  intros Hstages Hdone Hfail Hport Hother.
  rewrite (setup_run_failure _ _ _ _ Hstages Hdone Hfail).
  unfold disconnecting in Hother. rewrite !elem_of_cons, elem_of_nil in Hother.
  destruct e; try reflexivity; try done; exfalso; apply Hother; tauto.
Qed.

(** X14: when [disconnect] itself raises in an [except] clause, its
    exception leaves the set-up in place of [ConfigEntryNotReady]. *)
Theorem setup_disconnect_failure_propagates done failing rest e e' :
  stages = done ++ failing :: rest →
  (∀ c, c ∈ done → api_stick c = None) →
  api_stick failing = Some e →
  e ∈ disconnecting →
  api_stick disconnect = Some e' →
  async_setup_entry api_stick [] = (done ++ [failing; disconnect], Raise e').
Proof.
  intros Hstages Hdone Hfail He Hdisconnect.
  rewrite (setup_run_failure _ _ _ _ Hstages Hdone Hfail).
  unfold disconnecting in He. rewrite !elem_of_cons, elem_of_nil in He.
  destruct He as [-> | [-> | [-> | [-> | []]]]];
    by rewrite Hdisconnect, <- app_assoc.
Qed.

(** Either every stage returns or there is a first stage that raises. *)
Lemma stages_first_failure :
  (∀ c, c ∈ stages → api_stick c = None)
  ∨ ∃ done failing rest e,
      stages = done ++ failing :: rest
      ∧ (∀ c, c ∈ done → api_stick c = None)
      ∧ api_stick failing = Some e.
Proof.
  destruct (api_stick connect) as [e|] eqn:Hconnect.
  { right. exists [], connect, [initialize_stick; initialize_circle_plus], e.
    repeat split; [|done]. by intros c ?%elem_of_nil. }
  destruct (api_stick initialize_stick) as [e|] eqn:Hinit.
  { right. exists [connect], initialize_stick, [initialize_circle_plus], e.
    repeat split; [|done]. by intros c ->%list_elem_of_singleton. }
  destruct (api_stick initialize_circle_plus) as [e|] eqn:Hplus.
  { right. exists [connect; initialize_stick], initialize_circle_plus, [], e.
    repeat split; [|done].
    intros c Hc. rewrite !elem_of_cons, elem_of_nil in Hc.
    by destruct Hc as [-> | [-> | []]]. }
  left. intros c Hc. unfold stages in Hc. rewrite !elem_of_cons, elem_of_nil in Hc.
  by destruct Hc as [-> | [-> | [-> | []]]].
Qed.

Lemma stage_prefix_log done failing rest :
  stages = done ++ failing :: rest →
  (∃ tail, done ++ [failing] = connect :: tail) ∧ scan ∉ done ++ [failing].
Proof.
  unfold stages. intros Hstages.
  destruct done as [|c1 [|c2 [|c3 done]]]; simplify_eq/=.
  - split; [by eexists|]. by intros ?%list_elem_of_singleton.
  - split; [by eexists|]. rewrite !elem_of_cons, elem_of_nil.
    by intros [? | [? | []]].
  - split; [by eexists|]. rewrite !elem_of_cons, elem_of_nil.
    by intros [? | [? | [? | []]]].
  - by destruct done.
Qed.

(** X15: for every behaviour of the stick, the log of the set-up starts
    with [connect]; the scan is started exactly when the three stages
    returned, and never on a stick that was disconnected; and the set-up
    answers a value, which is [True], only after the scan returned. *)
Theorem setup_log_invariants :
  (∃ tail, (async_setup_entry api_stick []).1 = connect :: tail)
  ∧ (scan ∈ (async_setup_entry api_stick []).1
     ↔ ∀ c, c ∈ stages → api_stick c = None)
  ∧ (disconnect ∈ (async_setup_entry api_stick []).1 →
     scan ∉ (async_setup_entry api_stick []).1)
  ∧ (∀ b, (async_setup_entry api_stick []).2 = Ok b →
     b = true ∧ scan ∈ (async_setup_entry api_stick []).1 ∧ api_stick scan = None).
Proof.
  destruct stages_first_failure
    as [Hall | (done & failing & rest & e & Hstages & Hdone & Hfail)].
  - assert (Hrun : async_setup_entry api_stick []
                   = ([connect; initialize_stick; initialize_circle_plus; scan],
                      match api_stick scan with
                      | None => Ok true
                      | Some e => Raise e
                      end)).
    { unfold async_setup_entry.
      rewrite bind_run, try_except_run. unfold async_add_executor_job.
      rewrite bind_run, (stick_call_returns api_stick connect)
        by (apply Hall; by left).
      rewrite bind_run, (stick_call_returns api_stick initialize_stick)
        by (apply Hall; right; by left).
      rewrite (stick_call_returns api_stick initialize_circle_plus)
        by (apply Hall; right; right; by left).
      rewrite bind_run. unfold stick_call. by destruct (api_stick scan). }
    rewrite Hrun. cbn [fst snd].
    assert (Hscan : scan ∈ [connect; initialize_stick; initialize_circle_plus; scan]).
    { rewrite !elem_of_cons. tauto. }
    split; [by eexists|]. split; [done|]. split.
    + rewrite !elem_of_cons, elem_of_nil. by intros [? | [? | [? | [? | []]]]].
    + intros b Hb. destruct (api_stick scan); [done|]. by injection Hb as <-.
  - destruct (stage_prefix_log _ _ _ Hstages) as [[tail Htail] Hnoscan].
    assert (Hnotall : ¬ ∀ c, c ∈ stages → api_stick c = None).
    { intros Hall. rewrite Hall in Hfail; [done|].
      rewrite Hstages. apply elem_of_app. right. by left. }
    rewrite (setup_run_failure _ _ _ _ Hstages Hdone Hfail).
    assert (Hquiet : ∀ outcome : result bool,
      (∀ b, outcome ≠ Ok b) →
      (∃ tail', (done ++ [failing], outcome).1 = connect :: tail')
      ∧ (scan ∈ (done ++ [failing], outcome).1
         ↔ ∀ c, c ∈ stages → api_stick c = None)
      ∧ (disconnect ∈ (done ++ [failing], outcome).1 →
         scan ∉ (done ++ [failing], outcome).1)
      ∧ (∀ b, (done ++ [failing], outcome).2 = Ok b →
         b = true ∧ scan ∈ (done ++ [failing], outcome).1
         ∧ api_stick scan = None)).
    { intros outcome Hraise. cbn [fst snd].
      split; [by eexists|]. split; [done|]. split; [done|].
      intros b Hb. by destruct (Hraise b). }
    destruct e; try (by apply Hquiet); cbn [fst snd];
      (split; [rewrite Htail; by eexists|]; split; [|split];
       [ split; [|done];
         intros [?|?%list_elem_of_singleton]%elem_of_app; done
       | intros _ [?|?%list_elem_of_singleton]%elem_of_app; done
       | intros b; by destruct (api_stick disconnect) ]).
Qed.

End setup_more.

Lemma setup_succeeds_witness :
  async_setup_entry (fun _ => None) []
  = ([connect; initialize_stick; initialize_circle_plus; scan], Ok true).
Proof. by apply (setup_succeeds (fun _ => None)). Defined.

Lemma setup_unhandled_exception_propagates_witness :
  async_setup_entry (example_stick initialize_stick (OtherError "OSError")) []
  = ([connect; initialize_stick], Raise (OtherError "OSError")).
Proof.
  apply (setup_unhandled_exception_propagates
           (example_stick initialize_stick (OtherError "OSError"))
           [connect] initialize_stick [initialize_circle_plus]);
    [reflexivity | by intros c ->%list_elem_of_singleton | reflexivity | done |].
  unfold disconnecting. rewrite !elem_of_cons, elem_of_nil.
  by intros [? | [? | [? | [? | []]]]].
Defined.

Lemma setup_disconnect_failure_propagates_witness :
  async_setup_entry
    (fun c => match c with
              | initialize_circle_plus => Some CirclePlusError
              | disconnect => Some (OtherError "SerialException")
              | _ => None
              end) []
  = ([connect; initialize_stick; initialize_circle_plus; disconnect],
     Raise (OtherError "SerialException")).
Proof.
  apply (setup_disconnect_failure_propagates _
           [connect; initialize_stick] initialize_circle_plus [] CirclePlusError);
    [reflexivity | | reflexivity | | reflexivity].
  - intros c Hc. rewrite !elem_of_cons, elem_of_nil in Hc.
    by destruct Hc as [-> | [-> | []]].
  - right; right; by left.
Defined.

(** * More on the migration of unique ids *)

Lemma string_app_assoc (s1 s2 s3 : string) :
  (s1 +:+ s2) +:+ s3 = s1 +:+ (s2 +:+ s3).
Proof.
  induction s1 as [|c s1 IH]; [done|]. by rewrite !string_app_cons, IH.
Qed.

Lemma string_app_inv_head (s s1 s2 : string) : s +:+ s1 = s +:+ s2 → s1 = s2.
Proof.
  induction s as [|c s IH]; [done|]. rewrite !string_app_cons.
  intros [=]. by apply IH.
Qed.

(** Two ways to cut one string: one of the two fronts starts the other. *)
Lemma string_app_eq_split (a b c d : string) :
  a +:+ b = c +:+ d →
  (∃ k, c = a +:+ k ∧ b = k +:+ d) ∨ (∃ k, a = c +:+ k ∧ d = k +:+ b).
Proof.
  revert c. induction a as [|x a IH]; intros c.
  - rewrite string_app_nil_l. intros ->. left. by exists c.
  - destruct c as [|y c].
    + rewrite string_app_nil_l. intros <-. right. by exists (String x a).
    + rewrite !string_app_cons. intros [= -> H].
      destruct (IH c H) as [(k & -> & ->) | (k & -> & ->)];
        [left | right]; by exists k.
Qed.

Lemma prefix_inv (s1 s2 : string) :
  String.prefix s1 s2 = true → ∃ rest, s2 = s1 +:+ rest.
Proof.
  revert s2. induction s1 as [|c s1 IH]; intros s2.
  - intros _. by exists s2.
  - destruct s2 as [|c' s2]; simpl; [done|].
    destruct (ascii_dec c c') as [<-|]; [|done].
    intros [rest ->]%IH. by exists rest.
Qed.

(** Two suffixes of one string: one of the two ends the other. *)
Lemma endswith_comparable (front s suffix : string) :
  endswith (front +:+ s) suffix = true →
  endswith s suffix = true ∨ endswith suffix s = true.
Proof.
  induction front as [|c front IH].
  - rewrite string_app_nil_l. by left.
  - rewrite string_app_cons. cbn [endswith].
    intros [<-%String.eqb_eq | Htail]%orb_true_iff.
    + right. rewrite <- string_app_cons. apply endswith_app.
    + by apply IH.
Qed.

Lemma overlaps_false (old s : string) :
  overlaps old s = false →
  ∀ a b, s = a +:+ b → a ≠ EmptyString → b ≠ EmptyString →
         String.prefix b old = false.
Proof.
  induction s as [|c s IH]; intros Hover a b Hs Ha Hb.
  - destruct a; [done|]. by rewrite string_app_cons in Hs.
  - destruct a as [|x a]; [done|]. rewrite string_app_cons in Hs.
    injection Hs as -> ->.
    cbn [overlaps] in Hover.
    destruct (a +:+ b) as [|y s'] eqn:Hab.
    { destruct a; [by rewrite string_app_nil_l in Hab|].
      by rewrite string_app_cons in Hab. }
    apply orb_false_iff in Hover as [Hhere Hlater].
    destruct a as [|x' a].
    + rewrite string_app_nil_l in Hab. by rewrite Hab.
    + by apply (IH Hlater (String x' a) b).
Qed.

(** Where two occurrences of [old] cannot overlap, the replacement in a
    string that ends with [old] ends with [new]. *)
Lemma replace_ends_with_new (old new : string) :
  old ≠ EmptyString →
  overlaps old old = false →
  ∀ front, ∃ front', replace (front +:+ old) old new = front' +:+ new.
Proof.
  intros Hold Hover front.
  assert (Hscan : replace (front +:+ old) old new
                  = replace_scan old new 0 (front +:+ old)).
  { unfold replace. by destruct old. }
  rewrite Hscan. clear Hscan.
  remember (String.length front) as n eqn:Hn.
  assert (Hle : (String.length front <= n)%nat) by lia. clear Hn.
  revert front Hle. induction n as [|n IH]; intros front Hle.
  - destruct front; [|simpl in Hle; lia].
    exists EmptyString. rewrite !string_app_nil_l.
    rewrite <- (string_app_nil_r old) at 2.
    rewrite replace_scan_occurrence by done. simpl.
    by rewrite string_app_nil_r.
  - destruct (String.prefix old (front +:+ old)) eqn:Hprefix.
    + apply prefix_inv in Hprefix as [rest Hrest].
      destruct (string_app_eq_split _ _ _ _ Hrest)
        as [(k & Hk1 & Hk2) | (k & Hk1 & Hk2)].
      * (* [front] starts [old]: it is empty or all of [old] *)
        destruct front as [|x front].
        { exists EmptyString. rewrite !string_app_nil_l.
          rewrite <- (string_app_nil_r old) at 2.
          rewrite replace_scan_occurrence by done. simpl.
          by rewrite string_app_nil_r. }
        destruct k as [|y k].
        { rewrite string_app_nil_r in Hk1. subst old.
          rewrite replace_scan_occurrence by done.
          destruct (IH EmptyString ltac:(simpl; lia)) as [front' Hfront'].
          rewrite string_app_nil_l in Hfront'. rewrite Hfront'.
          exists (new +:+ front'). by rewrite string_app_assoc. }
        pose proof (overlaps_false _ _ Hover (String x front) (String y k)
                      Hk1 ltac:(done) ltac:(done)) as Hno.
        rewrite Hk2 in Hno. by rewrite prefix_app in Hno.
      * subst front. rewrite string_app_assoc.
        rewrite replace_scan_occurrence by done.
        destruct (IH k) as [front' Hfront'].
        { rewrite string_length_app in Hle.
          destruct old; [done|]. simpl in Hle. lia. }
        rewrite Hfront'. exists (new +:+ front'). by rewrite string_app_assoc.
    + destruct front as [|x front].
      { rewrite string_app_nil_l in Hprefix.
        rewrite <- (string_app_nil_r old) in Hprefix at 2.
        by rewrite prefix_app in Hprefix. }
      rewrite string_app_cons in *.
      rewrite replace_scan_other by done.
      destruct (IH front ltac:(simpl in Hle; lia)) as [front' Hfront'].
      rewrite Hfront'. by exists (String x front').
Qed.

(** A pair that alone matches decides the loop, wherever it stands. *)
Lemma migrate_loop_unique table entity_entry old new :
  (old, new) ∈ table →
  endswith (unique_id entity_entry) old = true →
  (∀ old' new', (old', new') ∈ table →
                endswith (unique_id entity_entry) old' = true →
                old' = old ∧ new' = new) →
  migrate_loop table entity_entry
  = Some {[ "new_unique_id" := replace (unique_id entity_entry) old new ]}.
Proof.
  intros Hin Hold Hunique.
  induction table as [|[old' new'] table IH]; [by apply elem_of_nil in Hin|].
  simpl. destruct (endswith (unique_id entity_entry) old') eqn:Hold'.
  - by destruct (Hunique old' new' ltac:(by left) Hold') as [-> ->].
  - apply elem_of_cons in Hin as [[= -> ->] | Hin]; [congruence|].
    apply IH; [done|]. intros o n Ho. apply Hunique. by right.
Qed.

(** The loop answers [None] or the rewrite by a pair that matches. *)
Lemma migrate_loop_cases table entity_entry :
  (migrate_loop table entity_entry = None
   ∧ ∀ old new, (old, new) ∈ table →
                endswith (unique_id entity_entry) old = false)
  ∨ ∃ old new,
      (old, new) ∈ table
      ∧ endswith (unique_id entity_entry) old = true
      ∧ migrate_loop table entity_entry
        = Some {[ "new_unique_id" := replace (unique_id entity_entry) old new ]}.
Proof.
  induction table as [|[old new] table IH]; simpl.
  - left. split; [done|]. by intros old new ?%elem_of_nil.
  - destruct (endswith (unique_id entity_entry) old) eqn:Hold.
    + right. exists old, new. split; [by left|done].
    + destruct IH as [[Hnone Hno] | (old' & new' & Hin & Hold' & Hsome)].
      * left. split; [done|].
        intros o n [[= -> ->] | Hin]%elem_of_cons; [done|]. by apply (Hno o n).
      * right. exists old', new'. split; [by right|done].
Qed.

(** The table of the code: no legacy name is empty or overlaps itself, no
    legacy name ends another one, and no new name ends a legacy name or
    the other way round. *)
Lemma conversion_list_facts old new :
  (old, new) ∈ conversion_list →
  old ≠ EmptyString
  ∧ overlaps old old = false
  ∧ ∀ old' new', (old', new') ∈ conversion_list →
      (endswith old old' = true ∨ endswith old' old = true →
       old' = old ∧ new' = new)
      ∧ endswith new old' = false
      ∧ endswith old' new = false.
Proof.
  unfold conversion_list. rewrite !elem_of_cons, elem_of_nil.
  intros Hin.
  repeat (destruct Hin as [[= -> ->] | Hin]); [..|done];
    (split; [done|]; split; [by vm_compute|]);
    intros old' new'; rewrite !elem_of_cons, elem_of_nil; intros Hin';
    repeat (destruct Hin' as [[= -> ->] | Hin']); try done;
    (split; [|by vm_compute]);
    first [ by intros _ | intros [H | H]; vm_compute in H; done ].
Qed.

(** An identifier ends with at most one legacy name. *)
Lemma legacy_suffix_unique id old new old' new' :
  (old, new) ∈ conversion_list →
  (old', new') ∈ conversion_list →
  endswith id old = true →
  endswith id old' = true →
  old' = old ∧ new' = new.
Proof.
  intros Hin Hin' Hold Hold'.
  destruct (endswith_inv _ _ Hold) as [front ->].
  destruct (conversion_list_facts _ _ Hin) as (_ & _ & Hfacts).
  destruct (Hfacts _ _ Hin') as (Hsame & _ & _).
  by apply Hsame, (endswith_comparable front).
Qed.

(** An identifier that ends with a new name ends with no legacy name. *)
Lemma migrated_needs_no_migration front old new :
  (old, new) ∈ conversion_list →
  migrate_loop conversion_list {| unique_id := front +:+ new |} = None.
Proof.
  intros Hin. apply migrate_loop_no_match, Forall_forall.
  intros [old' new'] Hin'. cbn [unique_id fst].
  destruct (conversion_list_facts _ _ Hin) as (_ & _ & Hfacts).
  destruct (Hfacts _ _ Hin') as (_ & Hno1 & Hno2).
  destruct (endswith (front +:+ new) old') eqn:Hends; [|done].
  apply endswith_comparable in Hends as [H | H]; congruence.
Qed.

(** X16: the order of the conversion list plays no part: every
    arrangement of its seven pairs migrates every entry alike. *)
Theorem migrate_order_irrelevant {ConfigEntry} (config_entry : ConfigEntry)
    table entity_entry :
  table ≡ₚ conversion_list →
  migrate_loop table entity_entry
  = async_migrate_entity_entry config_entry entity_entry.
Proof.
  intros Hperm. unfold async_migrate_entity_entry.
  destruct (migrate_loop_cases conversion_list entity_entry)
    as [[Hnone Hno] | (old & new & Hin & Hold & Hsome)].
  - rewrite Hnone. apply migrate_loop_no_match, Forall_forall.
    intros [old new] Hin. apply (Hno old new). by rewrite <- Hperm.
  - rewrite Hsome. apply migrate_loop_unique; [by rewrite Hperm | done |].
    intros old' new' Hin' Hold'.
    apply (legacy_suffix_unique (unique_id entity_entry)); [done | | done | done].
    by rewrite <- Hperm.
Qed.

(** The rewrite of a legacy name that occurs at the end only. *)
Lemma migrate_loop_suffix_only old new front :
  (old, new) ∈ conversion_list →
  only_at_end old front = true →
  migrate_loop conversion_list {| unique_id := front +:+ old |}
  = Some {[ "new_unique_id" := front +:+ new ]}.
Proof.
  intros Hin Honly.
  destruct (conversion_list_facts _ _ Hin) as (Hne & _ & _).
  rewrite (migrate_loop_unique conversion_list _ old new); cbn [unique_id].
  - by rewrite replace_only_at_end.
  - done.
  - apply endswith_app.
  - intros old' new' Hin' Hold'.
    by apply (legacy_suffix_unique (front +:+ old)); [| | apply endswith_app|].
Qed.

(** X17: on an identifier whose legacy name occurs at its end only, the
    migration rewrites that name and leaves the front as it is. *)
Theorem migrate_rewrites_suffix_only {ConfigEntry} (config_entry : ConfigEntry)
    old new front :
  (old, new) ∈ conversion_list →
  only_at_end old front = true →
  async_migrate_entity_entry config_entry {| unique_id := front +:+ old |}
  = Some {[ "new_unique_id" := front +:+ new ]}.
Proof. apply migrate_loop_suffix_only. Qed.

(** X18: the migration is done once: the identifier that it answers, for
    whatever entry, needs no migration. *)
Theorem migrate_is_one_time {ConfigEntry} (config_entry : ConfigEntry)
    entity_entry id :
  new_unique_id (async_migrate_entity_entry config_entry entity_entry) = Some id →
  async_migrate_entity_entry config_entry {| unique_id := id |} = None.
Proof.
  unfold async_migrate_entity_entry.
  destruct (migrate_loop_cases conversion_list entity_entry)
    as [[Hnone Hno] | (old & new & Hin & Hold & Hsome)].
  - by rewrite Hnone.
  - rewrite Hsome. unfold new_unique_id. simpl. rewrite lookup_singleton_eq.
    intros [= <-].
    destruct (endswith_inv _ _ Hold) as [front ->].
    destruct (conversion_list_facts _ _ Hin) as (Hne & Hover & _).
    destruct (replace_ends_with_new old new Hne Hover front) as [front' ->].
    by apply (migrated_needs_no_migration front' old new).
Qed.

Lemma migrate_order_irrelevant_witness :
  migrate_loop (reverse conversion_list) {| unique_id := "rssi_in-rssi_out" |}
  = async_migrate_entity_entry tt {| unique_id := "rssi_in-rssi_out" |}.
Proof.
  apply (migrate_order_irrelevant tt (reverse conversion_list)).
  apply reverse_Permutation.
Defined.

Lemma migrate_rewrites_suffix_only_witness :
  async_migrate_entity_entry tt {| unique_id := "000D6F0001A5A3B7-relay_state" |}
  = Some {[ "new_unique_id" := "000D6F0001A5A3B7-relay" ]}.
Proof.
  apply (migrate_rewrites_suffix_only tt "relay_state" "relay" "000D6F0001A5A3B7-").
  - unfold conversion_list. rewrite !elem_of_cons. tauto.
  - reflexivity.
Defined.

Lemma migrate_is_one_time_witness :
  async_migrate_entity_entry tt {| unique_id := "ping-ping" |} = None.
Proof.
  apply (migrate_is_one_time tt {| unique_id := "rtt-rtt" |}). reflexivity.
Defined.

(** * The unique id of an entity *)

Lemma list_ascii_of_string_app (s1 s2 : string) :
  list_ascii_of_string (s1 +:+ s2)
  = list_ascii_of_string s1 ++ list_ascii_of_string s2.
Proof.
  induction s1 as [|c s1 IH]; [done|].
  rewrite string_app_cons. simpl. by rewrite IH.
Qed.

(** A front without the first character of [old] has no occurrence of
    [old] that starts in it. *)
Lemma only_at_end_fresh (o : ascii) (rest front : string) :
  Forall (fun c => c ≠ o) (list_ascii_of_string front) →
  only_at_end (String o rest) front = true.
Proof.
  induction front as [|c front IH]; [done|].
  simpl. intros [Hc Hfront]%Forall_cons.
  destruct (ascii_dec o c) as [->|]; [done|]. by apply IH.
Qed.

Lemma legacy_names_start_lower old new :
  (old, new) ∈ conversion_list →
  ∃ o rest, old = String o rest ∧ is_lower o = true.
Proof.
  unfold conversion_list. rewrite !elem_of_cons, elem_of_nil.
  intros Hin.
  repeat (destruct Hin as [[= -> ->] | Hin]); [..|done]; by eexists _, _.
Qed.

(** The front of a string up to a separator that it does not hold. *)
Lemma string_app_sep_inj (sep : ascii) (a b c d : string) :
  sep ∉ list_ascii_of_string a →
  sep ∉ list_ascii_of_string c →
  a +:+ String sep b = c +:+ String sep d →
  a = c ∧ b = d.
Proof.
  revert c. induction a as [|x a IH]; intros c Ha Hc.
  - destruct c as [|y c]; rewrite ?string_app_nil_l, ?string_app_cons.
    + by intros [= ->].
    + intros [= <- _]. destruct Hc. by left.
  - destruct c as [|y c]; rewrite ?string_app_nil_l, ?string_app_cons.
    + intros [= -> _]. destruct Ha. by left.
    + intros [= -> H]. simpl in Ha, Hc.
      rewrite not_elem_of_cons in Ha, Hc.
      destruct (IH c) as [-> ->]; [tauto | tauto | done | done].
Qed.

Section entity.

Variables DOMAIN USB_AVAILABLE_ID : string.

Let init := PlugwiseUSBEntity.init DOMAIN USB_AVAILABLE_ID.

(** X19: the migration maps the identifier of an entity under a legacy
    key onto the identifier that the class gives the same node under the
    new key, for every MAC address without a lower-case letter. *)
Theorem entity_unique_id_migrates {ConfigEntry} (config_entry : ConfigEntry)
    (node : PlugwiseNode.t) (legacy current : PlugwiseEntityDescription.t) :
  (PlugwiseEntityDescription.key legacy, PlugwiseEntityDescription.key current)
    ∈ conversion_list →
  Forall (fun c => is_lower c = false) (list_ascii_of_string (PlugwiseNode.mac node)) →
  async_migrate_entity_entry config_entry
    {| unique_id := PlugwiseUSBEntity._attr_unique_id (init node legacy) |}
  = Some {[ "new_unique_id" := PlugwiseUSBEntity._attr_unique_id (init node current) ]}.
Proof.
  intros Hin Hmac. unfold init, PlugwiseUSBEntity.init.
  cbn [PlugwiseUSBEntity._attr_unique_id].
  change (?m +:+ "-" +:+ ?k) with (m +:+ ("-" +:+ k)).
  rewrite <- !string_app_assoc.
  unfold async_migrate_entity_entry.
  apply migrate_loop_suffix_only; [done|].
  destruct (legacy_names_start_lower _ _ Hin) as (o & rest & -> & Ho).
  apply only_at_end_fresh. rewrite list_ascii_of_string_app.
  apply Forall_app. split.
  - eapply Forall_impl; [exact Hmac|]. intros c Hc ->. congruence.
  - apply Forall_singleton. intros <-. by vm_compute in Ho.
Qed.

(** X20: the identifier of an entity under a new key needs no migration,
    whatever the MAC address of its node is. *)
Theorem entity_unique_id_current {ConfigEntry} (config_entry : ConfigEntry)
    (node : PlugwiseNode.t) (current : PlugwiseEntityDescription.t) old :
  (old, PlugwiseEntityDescription.key current) ∈ conversion_list →
  async_migrate_entity_entry config_entry
    {| unique_id := PlugwiseUSBEntity._attr_unique_id (init node current) |}
  = None.
Proof.
  intros Hin. unfold init, PlugwiseUSBEntity.init.
  cbn [PlugwiseUSBEntity._attr_unique_id].
  change (?m +:+ "-" +:+ ?k) with (m +:+ ("-" +:+ k)).
  rewrite <- string_app_assoc.
  by apply (migrated_needs_no_migration _ old).
Qed.

(** X21: two entities with the same unique id have the same MAC address
    and the same key, where no MAC address holds a dash. *)
Theorem entity_unique_id_injective
    (node1 node2 : PlugwiseNode.t) (description1 description2 : PlugwiseEntityDescription.t) :
  "-"%char ∉ list_ascii_of_string (PlugwiseNode.mac node1) →
  "-"%char ∉ list_ascii_of_string (PlugwiseNode.mac node2) →
  PlugwiseUSBEntity._attr_unique_id (init node1 description1)
  = PlugwiseUSBEntity._attr_unique_id (init node2 description2) →
  PlugwiseNode.mac node1 = PlugwiseNode.mac node2
  ∧ PlugwiseEntityDescription.key description1
    = PlugwiseEntityDescription.key description2.
Proof.
  intros H1 H2. unfold init, PlugwiseUSBEntity.init.
  cbn [PlugwiseUSBEntity._attr_unique_id].
  by apply string_app_sep_inj.
Qed.

End entity.

Lemma entity_unique_id_migrates_witness :
  async_migrate_entity_entry tt
    {| unique_id := "000D6F0001A5A3B7-last_8_seconds" |}
  = Some {[ "new_unique_id" := "000D6F0001A5A3B7-power_8s" ]}.
Proof.
  apply (entity_unique_id_migrates "plugwise_usb" "available" tt
           {| PlugwiseNode.available := true;
              PlugwiseNode.mac := "000D6F0001A5A3B7";
              PlugwiseNode.hardware_model := "Circle";
              PlugwiseNode.firmware_version := "2011-06-27";
              PlugwiseNode.features := ["relay"] |}
           {| PlugwiseEntityDescription.key := "last_8_seconds";
              PlugwiseEntityDescription.name := "Power usage 8 seconds";
              PlugwiseEntityDescription.should_poll := false |}
           {| PlugwiseEntityDescription.key := "power_8s";
              PlugwiseEntityDescription.name := "Power usage 8 seconds";
              PlugwiseEntityDescription.should_poll := false |}).
  - unfold conversion_list. rewrite !elem_of_cons. tauto.
  - simpl. repeat constructor.
Defined.

Lemma entity_unique_id_current_witness :
  async_migrate_entity_entry tt {| unique_id := "relay-ping" |} = None.
Proof.
  apply (entity_unique_id_current "plugwise_usb" "available" tt
           {| PlugwiseNode.available := true;
              PlugwiseNode.mac := "relay";
              PlugwiseNode.hardware_model := "Circle";
              PlugwiseNode.firmware_version := "2011-06-27";
              PlugwiseNode.features := [] |}
           {| PlugwiseEntityDescription.key := "ping";
              PlugwiseEntityDescription.name := "Ping roundtrip";
              PlugwiseEntityDescription.should_poll := false |}
           "rtt").
  unfold conversion_list. rewrite !elem_of_cons. tauto.
Defined.

Lemma entity_unique_id_injective_witness :
  "000D6F0001A5A3B7" = "000D6F0001A5A3B7" ∧ "power_8s" = "power_8s".
Proof.
  apply (entity_unique_id_injective "plugwise_usb" "available"
           {| PlugwiseNode.available := true;
              PlugwiseNode.mac := "000D6F0001A5A3B7";
              PlugwiseNode.hardware_model := "Circle";
              PlugwiseNode.firmware_version := "2011-06-27";
              PlugwiseNode.features := ["relay"] |}
           {| PlugwiseNode.available := false;
              PlugwiseNode.mac := "000D6F0001A5A3B7";
              PlugwiseNode.hardware_model := "Circle+";
              PlugwiseNode.firmware_version := "2011-06-27";
              PlugwiseNode.features := [] |}
           {| PlugwiseEntityDescription.key := "power_8s";
              PlugwiseEntityDescription.name := "Power usage 8 seconds";
              PlugwiseEntityDescription.should_poll := false |}
           {| PlugwiseEntityDescription.key := "power_8s";
              PlugwiseEntityDescription.name := "Power 8s";
              PlugwiseEntityDescription.should_poll := true |}).
  - simpl. rewrite !not_elem_of_cons. repeat split; try done. apply not_elem_of_nil.
  - simpl. rewrite !not_elem_of_cons. repeat split; try done. apply not_elem_of_nil.
  - reflexivity.
Defined.

(** * The store of the integration: discovery and unloading *)

Lemma ret_run {S A} (a : A) (s : S) : (mret a : M S A) s = (s, Ok a).
Proof. reflexivity. Qed.

Section store.

Import hass_store.

Variable PLATFORMS_USB : list string.
Variables Platform_SWITCH Platform_BINARY_SENSOR Platform_SENSOR : string.
Variables USB_RELAY_ID USB_MOTION_ID CB_JOIN_REQUEST UNDO_UPDATE_LISTENER : string.
Variable outcome : hass_call → option exn.
Variable unload_platforms : result bool.
Variable entry_id : string.

Abbreviation set_entry_item := (set_entry_item entry_id).
Abbreviation append_mac := (append_mac entry_id).
Abbreviation external := (external outcome).
Abbreviation discover_finished :=
  (discover_finished PLATFORMS_USB Platform_SWITCH Platform_BINARY_SENSOR
     Platform_SENSOR USB_RELAY_ID USB_MOTION_ID CB_JOIN_REQUEST outcome entry_id).
Abbreviation async_unload_entry :=
  (async_unload_entry PLATFORMS_USB UNDO_UPDATE_LISTENER outcome unload_platforms
     entry_id).

Lemma hass_eta (h : hass) : {| data := data h; calls := calls h |} = h.
Proof. by destruct h. Qed.

Lemma set_entry_item_run h entry k v :
  data h !! entry_id = Some entry →
  set_entry_item k v h
  = ({| data := <[entry_id := <[k := v]> entry]> (data h); calls := calls h |}, Ok tt).
Proof.
  intros Hentry. unfold hass_store.set_entry_item, get_entry.
  rewrite !bind_run. unfold get_self, lift, subscript. cbv beta iota.
  by rewrite Hentry.
Qed.

Lemma set_entry_item_missing h k v :
  data h !! entry_id = None → set_entry_item k v h = (h, Raise KeyError).
Proof.
  intros Hentry. unfold hass_store.set_entry_item, get_entry.
  rewrite !bind_run. unfold get_self, lift, subscript. cbv beta iota.
  by rewrite Hentry.
Qed.

Lemma append_mac_run h entry platform macs mac :
  data h !! entry_id = Some entry →
  entry !! platform = Some (VMacs macs) →
  append_mac platform mac h
  = ({| data := <[entry_id := <[platform := VMacs (macs ++ [mac])]> entry]> (data h);
        calls := calls h |}, Ok tt).
Proof.
  intros Hentry Hplatform. unfold hass_store.append_mac, get_entry.
  rewrite !bind_run. unfold get_self, lift, subscript. cbv beta iota.
  rewrite Hentry. cbv beta iota. rewrite Hplatform. cbv beta iota.
  by apply set_entry_item_run.
Qed.

Lemma external_data c h : data (external c h).1 = data h.
Proof. unfold hass_store.external. by destruct (outcome c). Qed.

Lemma append_if_run (b : bool) h entry platform macs mac :
  data h !! entry_id = Some entry →
  entry !! platform = Some (VMacs macs) →
  (if b then append_mac platform mac else mret tt) h
  = ({| data := <[entry_id :=
                    <[platform := VMacs (macs ++ if b then [mac] else [])]> entry]>
                  (data h);
        calls := calls h |}, Ok tt).
Proof.
  intros Hentry Hplatform. destruct b.
  - by apply append_mac_run.
  - rewrite app_nil_r, (insert_id entry), (insert_id (data h)) by done.
    by rewrite hass_eta.
Qed.

(** The first loop: every platform gets a new empty list. *)
Lemma reset_platforms_run l h entry :
  data h !! entry_id = Some entry →
  for_each l (fun component => set_entry_item component (VMacs [])) h
  = ({| data := <[entry_id := foldl (fun e c => <[c := VMacs []]> e) entry l]> (data h);
        calls := calls h |}, Ok tt).
Proof.
  revert h entry. induction l as [|c l IH]; intros h entry Hentry.
  - simpl. rewrite insert_id by done. by rewrite hass_eta.
  - rewrite for_each_cons, bind_run, (set_entry_item_run _ entry) by done.
    cbv beta iota.
    rewrite (IH _ (<[c := VMacs []]> entry)) by (simpl; apply lookup_insert_eq).
    simpl. by rewrite insert_insert_eq.
Qed.

Lemma reset_platforms_lookup l (entry : gmap string entry_value) k :
  foldl (fun e c => <[c := VMacs []]> e) entry l !! k
  = if bool_decide (k ∈ l) then Some (VMacs []) else entry !! k.
Proof.
  revert entry. induction l as [|c l IH]; intros entry; [done|].
  simpl. rewrite IH.
  destruct (decide (k ∈ l)) as [Hin|Hin].
  - rewrite !bool_decide_eq_true_2; [done | by right | done].
  - rewrite (bool_decide_eq_false_2 (k ∈ l)) by done.
    destruct (decide (k = c)) as [->|Hne].
    + rewrite lookup_insert_eq, bool_decide_eq_true_2; [done | by left].
    + rewrite lookup_insert_ne by done.
      rewrite bool_decide_eq_false_2; [done|].
      by intros [?|?]%elem_of_cons.
Qed.

(** The second loop, from lists that are there. *)
Lemma devices_loop_run devices h entry sensors switches motions :
  NoDup [Platform_SWITCH; Platform_BINARY_SENSOR; Platform_SENSOR] →
  data h !! entry_id = Some entry →
  entry !! Platform_SENSOR = Some (VMacs sensors) →
  entry !! Platform_SWITCH = Some (VMacs switches) →
  entry !! Platform_BINARY_SENSOR = Some (VMacs motions) →
  ∃ entry',
    for_each devices (fun '(mac, pw_device) =>
      match pw_device with
      | Some pw_device =>
          (if bool_decide (USB_RELAY_ID ∈ PlugwiseNode.features pw_device)
           then append_mac Platform_SWITCH mac
           else mret tt) ;;
          (if bool_decide (USB_MOTION_ID ∈ PlugwiseNode.features pw_device)
           then append_mac Platform_BINARY_SENSOR mac
           else mret tt) ;;
          append_mac Platform_SENSOR mac
      | None => mret tt
      end) h
    = ({| data := <[entry_id := entry']> (data h); calls := calls h |}, Ok tt)
    ∧ entry' !! Platform_SENSOR
      = Some (VMacs (sensors ++ macs_where (fun _ => true) devices))
    ∧ entry' !! Platform_SWITCH
      = Some (VMacs (switches ++ macs_where (has_feature USB_RELAY_ID) devices))
    ∧ entry' !! Platform_BINARY_SENSOR
      = Some (VMacs (motions ++ macs_where (has_feature USB_MOTION_ID) devices))
    ∧ ∀ k, k ∉ [Platform_SWITCH; Platform_BINARY_SENSOR; Platform_SENSOR] →
           entry' !! k = entry !! k.
Proof.
  intros Hdup. apply NoDup_cons in Hdup as [Hswitch Hdup].
  apply NoDup_cons in Hdup as [Hbinary _].
  rewrite !not_elem_of_cons in Hswitch. rewrite not_elem_of_cons in Hbinary.
  destruct Hswitch as (Hsb & Hss & _). destruct Hbinary as [Hbs _].
  revert h entry sensors switches motions.
  induction devices as [|[mac [node|]] devices IH];
    intros h entry sensors switches motions Hentry Hsensors Hswitches Hmotions.
  - exists entry. simpl. rewrite !app_nil_r, insert_id by done.
    by rewrite hass_eta.
  - rewrite for_each_cons, bind_run. cbv beta iota.
    rewrite bind_run.
    rewrite (append_if_run _ h entry Platform_SWITCH switches) by done.
    cbv beta iota. rewrite bind_run.
    erewrite (append_if_run _ _ _ Platform_BINARY_SENSOR motions);
      [|simpl; apply lookup_insert_eq|by rewrite lookup_insert_ne by congruence].
    cbv beta iota.
    erewrite (append_mac_run _ _ Platform_SENSOR sensors);
      [|simpl; apply lookup_insert_eq|by rewrite !lookup_insert_ne by congruence].
    simpl. rewrite !insert_insert_eq.
    match goal with
    | |- context [for_each _ _ {| data := <[entry_id := ?e]> _ |}] =>
        destruct (IH {| data := <[entry_id := e]> (data h); calls := calls h |} e
                    (sensors ++ [mac])
                    (switches ++ if bool_decide (USB_RELAY_ID ∈ PlugwiseNode.features node)
                                 then [mac] else [])
                    (motions ++ if bool_decide (USB_MOTION_ID ∈ PlugwiseNode.features node)
                                then [mac] else []))
          as (entry' & Hrun & Hs & Hw & Hm & Hother)
    end.
    { simpl. apply lookup_insert_eq. }
    { apply lookup_insert_eq. }
    { rewrite !lookup_insert_ne by congruence. apply lookup_insert_eq. }
    { rewrite lookup_insert_ne by congruence. apply lookup_insert_eq. }
    exists entry'. rewrite Hrun. simpl. rewrite insert_insert_eq.
    split; [done|]. unfold macs_where, has_feature in *. simpl.
    split; [by rewrite Hs, <- app_assoc|].
    split.
    { rewrite Hw, <- app_assoc.
      by destruct (bool_decide (USB_RELAY_ID ∈ PlugwiseNode.features node)). }
    split.
    { rewrite Hm, <- app_assoc.
      by destruct (bool_decide (USB_MOTION_ID ∈ PlugwiseNode.features node)). }
    intros k Hk. rewrite Hother by done.
    rewrite !not_elem_of_cons in Hk. destruct Hk as (? & ? & ? & _).
    by rewrite !lookup_insert_ne by congruence.
  - rewrite for_each_cons, bind_run, ret_run.
    destruct (IH h entry sensors switches motions)
      as (entry' & Hrun & Hrest); try done.
    exists entry'. by rewrite Hrun.
Qed.

Lemma bind_data (m1 m2 : M hass unit) :
  (∀ h, data (m1 h).1 = data h) →
  (∀ h, data (m2 h).1 = data h) →
  ∀ h, data ((m1 ;; m2) h).1 = data h.
Proof.
  intros H1 H2 h. rewrite bind_run. specialize (H1 h).
  destruct (m1 h) as [h1 [[]|e]]; simpl in *; [|done]. by rewrite H2.
Qed.

(** X22: after the discovery the sensor list of the entry holds the MAC
    addresses of the supported devices, the switch list those with the
    relay feature and the binary-sensor list those with the motion
    feature, each in the order of the devices and whatever the lists held
    before; the other platforms have an empty list, and nothing else in
    the store changes, whatever the calls that follow do. *)
Theorem discover_finished_lists h entry devices pref_disable_new_entities :
  NoDup [Platform_SWITCH; Platform_BINARY_SENSOR; Platform_SENSOR] →
  Platform_SWITCH ∈ PLATFORMS_USB →
  Platform_BINARY_SENSOR ∈ PLATFORMS_USB →
  Platform_SENSOR ∈ PLATFORMS_USB →
  data h !! entry_id = Some entry →
  ∃ entry',
    data (discover_finished devices pref_disable_new_entities h).1
    = <[entry_id := entry']> (data h)
    ∧ entry' !! Platform_SENSOR = Some (VMacs (macs_where (fun _ => true) devices))
    ∧ entry' !! Platform_SWITCH
      = Some (VMacs (macs_where (has_feature USB_RELAY_ID) devices))
    ∧ entry' !! Platform_BINARY_SENSOR
      = Some (VMacs (macs_where (has_feature USB_MOTION_ID) devices))
    ∧ ∀ k, k ∉ [Platform_SWITCH; Platform_BINARY_SENSOR; Platform_SENSOR] →
           entry' !! k
           = if bool_decide (k ∈ PLATFORMS_USB) then Some (VMacs []) else entry !! k.
Proof.
  intros Hdup Hswitch Hbinary Hsensor Hentry.
  unfold hass_store.discover_finished.
  rewrite bind_run, (reset_platforms_run _ _ entry) by done. cbv beta iota.
  rewrite bind_run.
  set (entry1 := foldl (fun e c => <[c := VMacs []]> e) entry PLATFORMS_USB).
  destruct (devices_loop_run devices
              {| data := <[entry_id := entry1]> (data h); calls := calls h |}
              entry1 [] [] [])
    as (entry' & Hrun & Hs & Hw & Hm & Hother); [exact Hdup | | | | |].
  { simpl. apply lookup_insert_eq. }
  { unfold entry1. rewrite reset_platforms_lookup. by rewrite bool_decide_eq_true_2. }
  { unfold entry1. rewrite reset_platforms_lookup. by rewrite bool_decide_eq_true_2. }
  { unfold entry1. rewrite reset_platforms_lookup. by rewrite bool_decide_eq_true_2. }
  rewrite Hrun. cbv beta iota. simpl in *.
  exists entry'. split.
  - rewrite bind_data; [simpl; by rewrite insert_insert_eq | apply external_data |].
    apply bind_data; [apply external_data|].
    intros h'. destruct pref_disable_new_entities; [apply external_data|].
    apply bind_data; apply external_data.
  - repeat split; try done.
    intros k Hk. rewrite Hother by done. apply reset_platforms_lookup.
Qed.

(** X23: a discovery that ends when the entry is no longer in the store
    raises [KeyError] at once: it changes nothing and makes no call. *)
Theorem discover_finished_without_entry h devices pref_disable_new_entities :
  PLATFORMS_USB ≠ [] →
  data h !! entry_id = None →
  discover_finished devices pref_disable_new_entities h = (h, Raise KeyError).
Proof.
  intros Hplatforms Hentry. unfold hass_store.discover_finished.
  destruct PLATFORMS_USB as [|component platforms]; [done|].
  rewrite bind_run, for_each_cons, bind_run.
  by rewrite set_entry_item_missing.
Qed.

(** The runs of the unloading, by what the store holds and what the
    calls do. *)
Lemma async_unload_entry_run h :
  async_unload_entry h
  = let h1 := log_call (async_unload_platforms PLATFORMS_USB) h in
    match unload_platforms with
    | Raise e => (h1, Raise e)
    | Ok unload_ok =>
        match data h !! entry_id ≫= (.!! UNDO_UPDATE_LISTENER) with
        | None => (h1, Raise KeyError)
        | Some VListener =>
            let h2 := log_call undo_update_listener h1 in
            match outcome undo_update_listener with
            | Some e => (h2, Raise e)
            | None =>
                if unload_ok then
                  match data h !! entry_id ≫= (.!! "stick") with
                  | None => (h2, Raise KeyError)
                  | Some VStick =>
                      let h3 := log_call stick_disconnect h2 in
                      match outcome stick_disconnect with
                      | Some e => (h3, Raise e)
                      | None =>
                          ({| data := delete entry_id (data h); calls := calls h3 |},
                           Ok true)
                      end
                  | Some _ => (h2, Raise (OtherError "AttributeError"))
                  end
                else (h2, Ok false)
            end
        | Some _ => (h1, Raise TypeError)
        end
    end.
Proof.
  unfold hass_store.async_unload_entry, await_unload_platforms, get_entry,
    call_value, disconnect_value, pop_entry, hass_store.external,
    get_self, lift, subscript, raise, modify, mbind, M_bind, mret, M_ret.
  cbv zeta. simpl.
  destruct unload_platforms as [unload_ok|e]; [|done].
  destruct (data h !! entry_id) as [entry|] eqn:Hentry; simpl; [|done].
  destruct (entry !! UNDO_UPDATE_LISTENER) as [[| |macs]|]; simpl; try done.
  destruct (outcome undo_update_listener); simpl; [done|].
  destruct unload_ok; simpl; [|done].
  rewrite Hentry. simpl.
  destruct (entry !! "stick") as [[| |macs]|]; simpl; try done.
  destruct (outcome stick_disconnect); simpl; [done|].
  by rewrite Hentry.
Qed.

(** X24: the unloading takes the entry out of the store exactly when it
    answers [True]; on every other run, with an answer or an exception,
    the store is as it was. *)
Theorem unload_pops_entry_iff_true h :
  ((async_unload_entry h).2 = Ok true →
   is_Some (data h !! entry_id)
   ∧ data (async_unload_entry h).1 = delete entry_id (data h))
  ∧ ((async_unload_entry h).2 ≠ Ok true →
     data (async_unload_entry h).1 = data h).
Proof.
  rewrite async_unload_entry_run. cbv zeta.
  destruct unload_platforms as [unload_ok|e]; [|done].
  destruct (data h !! entry_id) as [entry|]; simpl; [|done].
  destruct (entry !! UNDO_UPDATE_LISTENER) as [[| |macs]|]; simpl; try done.
  destruct (outcome undo_update_listener); simpl; [done|].
  destruct unload_ok; simpl; [|done].
  destruct (entry !! "stick") as [[| |macs]|]; simpl; try done.
  destruct (outcome stick_disconnect); simpl; [done|].
  split; [by eauto|done].
Qed.

(** X25: when the unloading answers, its answer is that of the platforms,
    the update listener has been undone, and the stick has been
    disconnected exactly for the answer [True]. *)
Theorem unload_answer h unload_ok :
  (async_unload_entry h).2 = Ok unload_ok →
  unload_platforms = Ok unload_ok
  ∧ calls (async_unload_entry h).1
    = calls h ++ [async_unload_platforms PLATFORMS_USB; undo_update_listener]
      ++ (if unload_ok then [stick_disconnect] else []).
Proof.
  rewrite async_unload_entry_run. cbv zeta.
  destruct unload_platforms as [answer|e]; [|done].
  destruct (data h !! entry_id) as [entry|]; simpl; [|done].
  destruct (entry !! UNDO_UPDATE_LISTENER) as [[| |macs]|]; simpl; try done.
  destruct (outcome undo_update_listener); simpl; [done|].
  destruct answer; simpl.
  - destruct (entry !! "stick") as [[| |macs]|]; simpl; try done.
    destruct (outcome stick_disconnect); simpl; [done|].
    intros [= <-]. by rewrite <- !app_assoc.
  - intros [= <-]. by rewrite <- !app_assoc.
Qed.

(** X26: when the entry is not in the store or lacks the undo function
    of the update listener, the unloading raises [KeyError] after the
    platforms were unloaded: the stick stays connected and the store as
    it was. *)
Theorem unload_without_listener h unload_ok :
  unload_platforms = Ok unload_ok →
  data h !! entry_id ≫= (.!! UNDO_UPDATE_LISTENER) = None →
  async_unload_entry h
  = ({| data := data h;
        calls := calls h ++ [async_unload_platforms PLATFORMS_USB] |},
     Raise KeyError).
Proof.
  intros Hunload Hundo. rewrite async_unload_entry_run. cbv zeta.
  by rewrite Hunload, Hundo.
Qed.

End store.

Lemma discover_finished_lists_witness :
  ∃ entry',
    hass_store.data
      (hass_store.discover_finished example_platforms "switch" "binary_sensor"
         "sensor" "relay" "motion" "NEW_NODE" (fun _ => None) "entry1"
         example_usb_devices false (example_hass {[ "entry1" := example_entry ]})).1
    = <["entry1" := entry']>
        (hass_store.data (example_hass {[ "entry1" := example_entry ]}))
    ∧ entry' !! "sensor"
      = Some (hass_store.VMacs (macs_where (fun _ => true) example_usb_devices))
    ∧ entry' !! "switch"
      = Some (hass_store.VMacs (macs_where (has_feature "relay") example_usb_devices))
    ∧ entry' !! "binary_sensor"
      = Some (hass_store.VMacs (macs_where (has_feature "motion") example_usb_devices))
    ∧ ∀ k, k ∉ ["switch"; "binary_sensor"; "sensor"] →
           entry' !! k
           = if bool_decide (k ∈ example_platforms)
             then Some (hass_store.VMacs [])
             else example_entry !! k.
Proof.
  apply (discover_finished_lists example_platforms "switch" "binary_sensor"
           "sensor" "relay" "motion" "NEW_NODE" (fun _ => None) "entry1"
           (example_hass {[ "entry1" := example_entry ]}) example_entry
           example_usb_devices false).
  - repeat constructor; rewrite ?not_elem_of_cons; repeat split;
      try done; apply not_elem_of_nil.
  - unfold example_platforms. rewrite !elem_of_cons. tauto.
  - unfold example_platforms. rewrite !elem_of_cons. tauto.
  - unfold example_platforms. rewrite !elem_of_cons. tauto.
  - reflexivity.
Defined.

Lemma discover_finished_without_entry_witness :
  hass_store.discover_finished example_platforms "switch" "binary_sensor"
    "sensor" "relay" "motion" "NEW_NODE" (fun _ => None) "entry1"
    example_usb_devices false (example_hass ∅)
  = (example_hass ∅, Raise KeyError).
Proof.
  by apply (discover_finished_without_entry example_platforms "switch"
              "binary_sensor" "sensor" "relay" "motion" "NEW_NODE"
              (fun _ => None) "entry1" (example_hass ∅) example_usb_devices false).
Defined.

Lemma unload_answer_witness :
  Ok true = Ok true
  ∧ hass_store.calls
      (hass_store.async_unload_entry example_platforms "undo_update_listener"
         (fun _ => None) (Ok true) "entry1"
         (example_hass {[ "entry1" := example_entry ]})).1
    = [] ++ [hass_store.async_unload_platforms example_platforms;
             hass_store.undo_update_listener]
      ++ [hass_store.stick_disconnect].
Proof.
  apply (unload_answer example_platforms "undo_update_listener" (fun _ => None)
           (Ok true) "entry1" (example_hass {[ "entry1" := example_entry ]}) true).
  reflexivity.
Defined.

Lemma unload_without_listener_witness :
  hass_store.async_unload_entry example_platforms "undo_update_listener"
    (fun _ => None) (Ok true) "entry1"
    (example_hass {[ "entry1" := {[ "stick" := hass_store.VStick ]} ]})
  = ({| hass_store.data := {[ "entry1" := {[ "stick" := hass_store.VStick ]} ]};
        hass_store.calls := [hass_store.async_unload_platforms example_platforms] |},
     Raise KeyError).
Proof.
  exact (unload_without_listener example_platforms "undo_update_listener"
           (fun _ => None) (Ok true) "entry1"
           (example_hass {[ "entry1" := {[ "stick" := hass_store.VStick ]} ]})
           true eq_refl eq_refl).
Defined.

(** * The migration of the identifiers that the integration makes *)

Lemma list_ascii_of_string_elem_app_l (c : ascii) (s1 s2 : string) :
  c ∈ list_ascii_of_string s1 → c ∈ list_ascii_of_string (s1 +:+ s2).
Proof. rewrite list_ascii_of_string_app, elem_of_app. by left. Qed.

(** The legacy names of the table hold no dash, and each holds a
    character that no MAC address holds. *)
Lemma legacy_names_outside_mac old new :
  (old, new) ∈ conversion_list →
  ("-"%char ∉ list_ascii_of_string old)
  ∧ ∃ c, c ∈ list_ascii_of_string old ∧ mac_char c = false.
Proof.
  unfold conversion_list. rewrite !elem_of_cons, elem_of_nil.
  intros Hin.
  repeat (destruct Hin as [[= -> ->] | Hin]); [..|done];
    (split;
     [ simpl; rewrite !not_elem_of_cons; repeat split; try done;
       apply not_elem_of_nil
     | ]).
  - exists "l"%char. split; [by left|done].
  - exists "l"%char. split; [by left|done].
  - exists "y"%char. split; [simpl; rewrite !elem_of_cons; tauto|done].
  - exists "r"%char. split; [by left|done].
  - exists "r"%char. split; [by left|done].
  - exists "r"%char. split; [by left|done].
  - exists "r"%char. split; [by left|done].
Qed.

(** A name with a character that is foreign to the MAC address and
    without a dash starts nowhere in the MAC address and not at the dash
    behind it. *)
Lemma prefix_in_mac_false (old mac_front mac_tail rest : string) (foreign : ascii) :
  Forall (fun c => mac_char c = true) (list_ascii_of_string (mac_front +:+ mac_tail)) →
  foreign ∈ list_ascii_of_string old →
  mac_char foreign = false →
  "-"%char ∉ list_ascii_of_string old →
  String.prefix old (mac_tail +:+ String "-" rest) = false.
Proof.
  intros Hmac Hforeign Hchar Hdash.
  destruct (String.prefix old (mac_tail +:+ String "-" rest)) eqn:Hprefix; [|done].
  exfalso.
  assert (Hin : ¬ foreign ∈ list_ascii_of_string mac_tail).
  { intros Hin. rewrite list_ascii_of_string_app, Forall_app in Hmac.
    destruct Hmac as [_ Htail]. rewrite Forall_forall in Htail.
    specialize (Htail _ Hin). congruence. }
  apply prefix_inv in Hprefix as [behind Hbehind].
  symmetry in Hbehind.
  destruct (string_app_eq_split _ _ _ _ Hbehind)
    as [(k & Hk1 & Hk2) | (k & Hk1 & Hk2)].
  - (* the MAC address tail starts with [old] *)
    apply Hin. rewrite Hk1. by apply list_ascii_of_string_elem_app_l.
  - destruct k as [|c k].
    + rewrite string_app_nil_r in Hk1. by subst old.
    + rewrite string_app_cons in Hk2. injection Hk2 as <- _.
      apply Hdash. rewrite Hk1, list_ascii_of_string_app, elem_of_app.
      right. by left.
Qed.

Lemma only_at_end_behind_mac (old mac_front mac_tail key_front : string) (foreign : ascii) :
  Forall (fun c => mac_char c = true) (list_ascii_of_string (mac_front +:+ mac_tail)) →
  foreign ∈ list_ascii_of_string old →
  mac_char foreign = false →
  "-"%char ∉ list_ascii_of_string old →
  only_at_end old key_front = true →
  only_at_end old (mac_tail +:+ String "-" key_front) = true.
Proof.
  intros Hmac Hforeign Hchar Hdash Hkey.
  revert mac_front Hmac. induction mac_tail as [|c mac_tail IH]; intros mac_front Hmac.
  - rewrite string_app_nil_l. cbn [only_at_end]. rewrite Hkey, andb_true_r.
    apply negb_true_iff.
    change (String "-" key_front +:+ old) with (EmptyString +:+ String "-" (key_front +:+ old)).
    by apply (prefix_in_mac_false old mac_front EmptyString _ foreign).
  - rewrite string_app_cons. cbn [only_at_end].
    apply andb_true_iff. split.
    + apply negb_true_iff. rewrite <- string_app_cons, string_app_assoc.
      change (String "-" key_front +:+ old) with (String "-" (key_front +:+ old)).
      by apply (prefix_in_mac_false old mac_front (String c mac_tail) _ foreign).
    + apply (IH (mac_front +:+ String c EmptyString)).
      by rewrite string_app_assoc.
Qed.

(** A key that is a legacy name ends with no other legacy name, and
    with itself at the end only. *)
Lemma legacy_key_only_at_end key current old new key_front :
  (key, current) ∈ conversion_list →
  (old, new) ∈ conversion_list →
  key = key_front +:+ old →
  only_at_end old key_front = true.
Proof.
  intros Hkey Hin Hsplit.
  destruct (conversion_list_facts _ _ Hkey) as (_ & _ & Hfacts).
  destruct (Hfacts _ _ Hin) as (Hsame & _ & _).
  destruct Hsame as [-> _].
  { left. rewrite Hsplit. apply endswith_app. }
  assert (Hlength : String.length key_front = 0).
  { apply (f_equal String.length) in Hsplit.
    rewrite string_length_app in Hsplit. lia. }
  by destruct key_front.
Qed.

Section persisted.

Variables DOMAIN USB_AVAILABLE_ID : string.

Abbreviation unique_id_of node description :=
  (PlugwiseUSBEntity._attr_unique_id
     (PlugwiseUSBEntity.init DOMAIN USB_AVAILABLE_ID node description)).

(** In an identifier that the entity class makes, a legacy name at the
    end occurs nowhere else. *)
Lemma persisted_only_at_end node description old new front :
  Forall (fun c => mac_char c = true) (list_ascii_of_string (PlugwiseNode.mac node)) →
  (∀ old new key_front,
     (old, new) ∈ conversion_list →
     PlugwiseEntityDescription.key description = key_front +:+ old →
     only_at_end old key_front = true) →
  (old, new) ∈ conversion_list →
  unique_id_of node description = front +:+ old →
  only_at_end old front = true.
Proof.
  intros Hmac Hkey Hin Hid.
  destruct (legacy_names_outside_mac _ _ Hin) as (Hdash & foreign & Hforeign & Hchar).
  unfold PlugwiseUSBEntity.init in Hid.
  cbn [PlugwiseUSBEntity._attr_unique_id] in Hid.
  change (?m +:+ "-" +:+ ?k) with (m +:+ String "-" k) in Hid.
  assert (Hsplit : ∃ key_front,
    front = PlugwiseNode.mac node +:+ String "-" key_front
    ∧ PlugwiseEntityDescription.key description = key_front +:+ old).
  { destruct (string_app_eq_split _ _ _ _ Hid)
      as [(k & Hk1 & Hk2) | (k & Hk1 & Hk2)].
    - destruct k as [|c k].
      + rewrite string_app_nil_l in Hk2. destruct Hdash.
        rewrite <- Hk2. by left.
      + rewrite string_app_cons in Hk2. injection Hk2 as <- Hk2.
        exists k. by rewrite Hk1.
    - (* [old] reaches over the dash *)
      exfalso. apply Hdash.
      rewrite Hk2, list_ascii_of_string_app, elem_of_app. right. by left. }
  destruct Hsplit as (key_front & -> & Hkeyfront).
  apply (only_at_end_behind_mac old EmptyString _ _ foreign); try done.
  by apply (Hkey old new).
Qed.

(** C5: for every identifier that the entity class makes of a MAC address
    and a key, the pairs are tried in table order and the first pair whose
    legacy suffix ends the identifier rewrites that suffix and nothing
    else; an identifier that ends with no legacy suffix is not migrated.
    The MAC address has no lower-case letter behind [f], and a legacy
    name that ends the key occurs in the key nowhere else (so it is for a
    key that is a legacy name and for a key that ends with none). *)
Theorem migrate_persisted_identifier {ConfigEntry} (config_entry : ConfigEntry)
    (node : PlugwiseNode.t) (description : PlugwiseEntityDescription.t) :
  Forall (fun c => mac_char c = true) (list_ascii_of_string (PlugwiseNode.mac node)) →
  (∀ old new key_front,
     (old, new) ∈ conversion_list →
     PlugwiseEntityDescription.key description = key_front +:+ old →
     only_at_end old key_front = true) →
  (∀ before old new after front,
     conversion_list = before ++ (old, new) :: after →
     Forall (fun pair => endswith (unique_id_of node description) pair.1 = false) before →
     unique_id_of node description = front +:+ old →
     async_migrate_entity_entry config_entry
       {| unique_id := unique_id_of node description |}
     = Some {[ "new_unique_id" := front +:+ new ]})
  ∧ ((∀ old new, (old, new) ∈ conversion_list →
                 endswith (unique_id_of node description) old = false) →
     async_migrate_entity_entry config_entry
       {| unique_id := unique_id_of node description |}
     = None).
Proof.
  intros Hmac Hkey. split.
  - intros before old new after front Htable Hbefore Hid.
    assert (Hin : (old, new) ∈ conversion_list).
    { rewrite Htable, elem_of_app. right. by left. }
    pose proof (persisted_only_at_end _ _ _ _ _ Hmac Hkey Hin Hid) as Honly.
    destruct (conversion_list_facts _ _ Hin) as (Hne & _ & _).
    unfold async_migrate_entity_entry.
    rewrite Htable at 1.
    rewrite migrate_loop_first_match; cbn [unique_id].
    + by rewrite Hid, replace_only_at_end.
    + done.
    + rewrite Hid. apply endswith_app.
  - intros Hno. unfold async_migrate_entity_entry.
    apply migrate_loop_no_match, Forall_forall.
    intros [old new] Hin. by apply (Hno old new).
Qed.

End persisted.

Lemma migrate_persisted_identifier_witness :
  async_migrate_entity_entry tt {| unique_id := "00:11-day_consumption" |}
  = Some {[ "new_unique_id" := "00:11-energy_consumption_today" ]}.
Proof.
  refine (proj1 (migrate_persisted_identifier "plugwise_usb" "available" tt
                   {| PlugwiseNode.available := true;
                      PlugwiseNode.mac := "00:11";
                      PlugwiseNode.hardware_model := "Circle";
                      PlugwiseNode.firmware_version := "2011-06-27";
                      PlugwiseNode.features := ["relay"] |}
                   {| PlugwiseEntityDescription.key := "day_consumption";
                      PlugwiseEntityDescription.name := "Energy consumption today";
                      PlugwiseEntityDescription.should_poll := false |} _ _)
            [("last_second", "power_1s"); ("last_8_seconds", "power_8s")]
            "day_consumption" "energy_consumption_today"
            [("rtt", "ping"); ("rssi_in", "RSSI_in"); ("rssi_out", "RSSI_out");
             ("relay_state", "relay")]
            "00:11-" eq_refl _ eq_refl).
  - simpl. repeat constructor.
  - intros old new key_front. simpl.
    apply (legacy_key_only_at_end "day_consumption" "energy_consumption_today").
    unfold conversion_list. rewrite !elem_of_cons. tauto.
  - repeat constructor.
Defined.
